(** * imapsyncui: the task lifecycle and scheduling engine

    A shallow embedding of the synchronisation engine of [imapsyncui.py]
    (class [ImapSyncTUI], sections I, O and P of the source): the task table
    [self.sync_tasks], the worker [_run_imapsync_for_task], the submission
    [_start_sync], the recurrence callback [_scheduled_sync], the manual
    cancellation [_stop_sync] and the log consumers [_search_logs] and
    [_export_logs].

    Python strings are modelled as Rocq strings holding their UTF-8 bytes;
    Python dictionaries with a fixed set of keys as records; the task table,
    a dictionary keyed by task id, as a [gmap] together with the insertion
    order of its keys; thread, timer and process objects as indices into the
    lists of all objects of their kind created so far. *)

From Stdlib Require Import ZArith Ascii String.
From stdpp Require Import gmap strings list pretty.

Local Open Scope Z_scope.

(** ** Strings *)

Module Str.

(** [needle in s] *)
Fixpoint contains (needle s : string) : bool :=
  String.prefix needle s ||
  match s with
  | EmptyString => false
  | String _ s' => contains needle s'
  end.

(** [str.lower()] on the UTF-8 encoding, for the code points of the Basic
    Latin and Latin-1 Supplement blocks: A..Z, and U+00C0..U+00DE except the
    multiplication sign U+00D7, whose encodings are the lead byte 0xC3
    followed by 0x80..0x9E.  Other code points are left as they are; none of
    them lower-cases to a letter of the words the engine looks for. *)
Definition lower_byte (after_c3 : bool) (c : ascii) : ascii :=
  let n := N_of_ascii c in
  if after_c3
  then if (128 <=? n)%N && (n <=? 158)%N && negb (n =? 151)%N
       then ascii_of_N (n + 32) else c
  else if (65 <=? n)%N && (n <=? 90)%N then ascii_of_N (n + 32) else c.

Definition is_c3 (after_c3 : bool) (c : ascii) : bool :=
  negb after_c3 && (N_of_ascii c =? 195)%N.

Fixpoint lower_from (after_c3 : bool) (s : string) : string :=
  match s with
  | EmptyString => EmptyString
  | String c s' => String (lower_byte after_c3 c) (lower_from (is_c3 after_c3 c) s')
  end.

Definition lower (s : string) : string := lower_from false s.

(** [sep.join(l)] *)
Definition join (sep : string) (l : list string) : string := String.concat sep l.

(** [str(n)] for an integer *)
Definition of_int (n : Z) : string := pretty n.

(** [bool(s)] for a string *)
Definition truthy (s : string) : bool :=
  match s with EmptyString => false | _ => true end.

(** A byte 10xxxxxx, which continues the code point begun before it. *)
Definition is_continuation (c : ascii) : bool :=
  let n := N_of_ascii c in (128 <=? n)%N && (n <? 192)%N.

(** [s[:n]] for [n >= 0]: the first [n] code points of [s], read on the
    UTF-8 encoding. *)
Fixpoint take (n : nat) (s : string) : string :=
  match s with
  | EmptyString => EmptyString
  | String c s' =>
      if is_continuation c then String c (take n s')
      else match n with
           | O => EmptyString
           | S n' => String c (take n' s')
           end
  end.

End Str.

(** ** Configuration records *)

(** One entry of [project["accounts"]]; a key that is absent is [None]. *)
Record Account := {
  source_email : option string;
  target_email : option string;
  password : option string;
  subfolder : option string
}.

(** [project["imapsync_options"]]: toggles are booleans, sizes integers, the
    rest strings; an absent key reads as the falsy value of its type. *)
Record ImapsyncOptions := {
  ssl1 : bool; ssl2 : bool; tls1 : bool; tls2 : bool;
  logfile : string; authmech1 : string; authmech2 : string;
  automap : bool; regextrans2 : string; delete2 : bool;
  maxsize : Z; minsize : Z
}.

Definition no_options : ImapsyncOptions :=
  {| ssl1 := false; ssl2 := false; tls1 := false; tls2 := false;
     logfile := ""; authmech1 := ""; authmech2 := "";
     automap := false; regextrans2 := ""; delete2 := false;
     maxsize := 0; minsize := 0 |}.

Record Project := {
  proj_name : string;                       (* project["project_name"] *)
  old_server_url : option string;
  new_server_url : option string;
  imapsync_options : option ImapsyncOptions;
  accounts : list Account;
  sync_interval : option Z
}.

Definition set_sync_interval (i : Z) (p : Project) : Project :=
  {| proj_name := proj_name p; old_server_url := old_server_url p;
     new_server_url := new_server_url p; imapsync_options := imapsync_options p;
     accounts := accounts p; sync_interval := Some i |}.

(** ** The command line of one account (source lines 674-719) *)

Definition flag (b : bool) (name : string) : list string :=
  if b then [name] else [].

Definition str_opt (v : string) (name : string) : list string :=
  if Str.truthy v then [name; v] else [].

Definition int_opt (v : Z) (name : string) : list string :=
  if (v =? 0) then [] else [name; Str.of_int v].

Definition option_args (o : ImapsyncOptions) : list string :=
  flag (ssl1 o) "--ssl1" ++ flag (ssl2 o) "--ssl2" ++
  flag (tls1 o) "--tls1" ++ flag (tls2 o) "--tls2" ++
  str_opt (logfile o) "--logfile" ++
  str_opt (authmech1 o) "--authmech1" ++
  str_opt (authmech2 o) "--authmech2" ++
  flag (automap o) "--automap" ++
  str_opt (regextrans2 o) "--regextrans2" ++
  flag (delete2 o) "--delete2" ++
  int_opt (maxsize o) "--maxsize" ++
  int_opt (minsize o) "--minsize".

Definition src_email_of (acc : Account) : string := default "" (source_email acc).
Definition tgt_email_of (acc : Account) : string :=
  default (src_email_of acc) (target_email acc).
Definition password_of (acc : Account) : string := default "" (password acc).
Definition subfolder_of (acc : Account) : string := default "" (subfolder acc).

Definition subfolder_args (sub : string) : list string :=
  if Str.truthy sub then ["--regextrans2"; "s/^(.*)/" +:+ sub +:+ "/$1"] else [].

Definition build_cmd (imapsync_bin : string) (project : Project) (acc : Account)
  : list string :=
  let old_server := default "" (old_server_url project) in
  let new_server := default "" (new_server_url project) in
  let opts := default no_options (imapsync_options project) in
  [imapsync_bin;
   "--host1"; old_server;
   "--user1"; src_email_of acc;
   "--password1"; password_of acc;
   "--host2"; new_server;
   "--user2"; tgt_email_of acc;
   "--password2"; password_of acc]
  ++ option_args opts
  ++ subfolder_args (subfolder_of acc).

Definition cmd_line (imapsync_bin : string) (project : Project) (acc : Account)
  : string :=
  "Commande : " +:+ Str.join " " (build_cmd imapsync_bin project acc).

(** ** Tasks and the scheduler state *)

(** The four states of the specification, as the source spells them. *)
Definition Running : string := "En cours".
Definition Completed : string := "Terminée".
Definition Failed : string := "Erreur: échecs sur un ou plusieurs comptes".
Definition Stopped : string := "Arrêtée".

(** One value of [self.sync_tasks]; [thread], [process] and [timer] hold
    handles (indices into [threads], [procs] and [timers] of the state). *)
Record Task := {
  project_name : string;
  status : string;
  logs : list string;
  thread : option nat;
  process : option nat;
  selected_accounts : list Account;
  interval : Z;
  timer : option nat;
  expanded : bool
}.

Definition with_status (s : string) (t : Task) : Task :=
  {| project_name := project_name t; status := s; logs := logs t;
     thread := thread t; process := process t;
     selected_accounts := selected_accounts t; interval := interval t;
     timer := timer t; expanded := expanded t |}.

(** [task["logs"].append(line)] *)
Definition append_log (line : string) (t : Task) : Task :=
  {| project_name := project_name t; status := status t; logs := logs t ++ [line];
     thread := thread t; process := process t;
     selected_accounts := selected_accounts t; interval := interval t;
     timer := timer t; expanded := expanded t |}.

Definition with_thread (h : option nat) (t : Task) : Task :=
  {| project_name := project_name t; status := status t; logs := logs t;
     thread := h; process := process t;
     selected_accounts := selected_accounts t; interval := interval t;
     timer := timer t; expanded := expanded t |}.

Definition with_process (h : option nat) (t : Task) : Task :=
  {| project_name := project_name t; status := status t; logs := logs t;
     thread := thread t; process := h;
     selected_accounts := selected_accounts t; interval := interval t;
     timer := timer t; expanded := expanded t |}.

(** What the child process of one account does, as the worker sees it.
    [lines] are the successive values of [output.strip()]; [err] is
    [Some (err_output.strip())] when [err_output] is not empty. *)
Inductive Outcome :=
| LaunchFailed (msg : string)                    (* subprocess.Popen raised *)
| ReadFailed (lines : list string) (msg : string) (* an exception while reading *)
| Exited (lines : list string) (err : option string) (rc : Z).

(** What the environment does during one execution of
    [_run_imapsync_for_task]: the path of the binary, whether it exists, and
    the outcome of the account at each position of the sequence.  A thread
    carries it from its start; the properties below hold for every such
    environment. *)
Record RunEnv := {
  imapsync_bin : string;
  bin_exists : bool;
  outcome : nat -> Outcome
}.

(** The blocks of the worker that run one after the other, each under
    [self.lock] (or, for [OPopen] and [OExit], between two such blocks). *)
Inductive Op :=
| OLog (line : string) (msg : option string) (* logs.append(line); status_message = msg *)
| OPopen                                     (* proc = subprocess.Popen(...) *)
| OStore                                     (* task["process"] = proc *)
| OExit                                      (* proc.poll() is not None *)
| OFinal.                                    (* the final status *)

Inductive Pc :=
| Begin                    (* not yet entered the first locked block *)
| Steps (todo : list Op).  (* blocks still to run; [Steps []] has returned *)

Record Thread := {
  th_task : string;          (* args=(task_id,) *)
  th_env : RunEnv;
  th_proc : option nat;      (* the local variable proc *)
  th_pc : Pc
}.

Record Timer := {
  tm_task : string;          (* args=(task_id,) *)
  tm_delay : Z;              (* seconds *)
  tm_pending : bool          (* started and not yet fired *)
}.

Record Proc := {
  alive : bool;              (* poll() is None *)
  terminated : bool          (* terminate() was called on it *)
}.

(** The fields of [ImapSyncTUI] the engine works on, and the objects it has
    created.  [self.log_scroll_offsets] and the other fields of the display
    are left out. *)
Record State := {
  config : list Project;               (* self.config["projects"] *)
  sync_tasks : gmap string Task;       (* self.sync_tasks *)
  task_order : list string;            (* the order of its keys *)
  status_message : string;
  threads : list Thread;
  timers : list Timer;
  procs : list Proc
}.

Definition initial (projects : list Project) : State :=
  {| config := projects; sync_tasks := ∅; task_order := [];
     status_message := "Bienvenue dans IMAPSync UI!";
     threads := []; timers := []; procs := [] |}.

Definition set_config (c : list Project) (st : State) : State :=
  {| config := c; sync_tasks := sync_tasks st; task_order := task_order st;
     status_message := status_message st; threads := threads st;
     timers := timers st; procs := procs st |}.

Definition set_tasks (m : gmap string Task) (st : State) : State :=
  {| config := config st; sync_tasks := m; task_order := task_order st;
     status_message := status_message st; threads := threads st;
     timers := timers st; procs := procs st |}.

Definition set_order (o : list string) (st : State) : State :=
  {| config := config st; sync_tasks := sync_tasks st; task_order := o;
     status_message := status_message st; threads := threads st;
     timers := timers st; procs := procs st |}.

Definition set_message (m : string) (st : State) : State :=
  {| config := config st; sync_tasks := sync_tasks st; task_order := task_order st;
     status_message := m; threads := threads st;
     timers := timers st; procs := procs st |}.

Definition set_threads (l : list Thread) (st : State) : State :=
  {| config := config st; sync_tasks := sync_tasks st; task_order := task_order st;
     status_message := status_message st; threads := l;
     timers := timers st; procs := procs st |}.

Definition set_timers (l : list Timer) (st : State) : State :=
  {| config := config st; sync_tasks := sync_tasks st; task_order := task_order st;
     status_message := status_message st; threads := threads st;
     timers := l; procs := procs st |}.

Definition set_procs (l : list Proc) (st : State) : State :=
  {| config := config st; sync_tasks := sync_tasks st; task_order := task_order st;
     status_message := status_message st; threads := threads st;
     timers := timers st; procs := l |}.

(** [task[...] = ...] on the task of id [tid] *)
Definition update_task (tid : string) (f : Task -> Task) (st : State) : State :=
  set_tasks (alter f tid (sync_tasks st)) st.

(** ** The worker: [_run_imapsync_for_task] *)

Definition ok_line (acc : Account) : string :=
  "Synchronisation OK pour " +:+ src_email_of acc +:+ " -> " +:+ tgt_email_of acc.

Definition failed_line (acc : Account) (rc : Z) : string :=
  "Synchronisation échouée pour " +:+ src_email_of acc +:+ " -> "
    +:+ tgt_email_of acc +:+ " (Code " +:+ Str.of_int rc +:+ ")".

Definition exception_line (msg : string) : string :=
  "Exception lors de la synchro: " +:+ msg.

Definition stderr_line (err : string) : string := "ERREUR: " +:+ err.

Definition running_message (project : Project) : string :=
  "Synchronisation en cours pour '" +:+ proj_name project +:+ "'...".

Definition stdout_op (project : Project) (line : string) : Op :=
  OLog line (Some (running_message project)).

Definition stderr_ops (err : option string) : list Op :=
  match err with
  | Some e => [OLog (stderr_line e) (Some "Erreur lors de la synchronisation.")]
  | None => []
  end.

Definition rc_line (acc : Account) (rc : Z) : string :=
  if rc =? 0 then ok_line acc else failed_line acc rc.

(** The body of [for acc in accounts] for one account (lines 674-756). *)
Definition account_ops (bin : string) (project : Project) (acc : Account)
    (o : Outcome) : list Op :=
  OLog (cmd_line bin project acc) None ::
  match o with
  | LaunchFailed msg => [OLog (exception_line msg) None]
  | ReadFailed lines msg =>
      [OPopen; OStore] ++ (stdout_op project <$> lines)
        ++ [OLog (exception_line msg) None]
  | Exited lines err rc =>
      [OPopen; OStore] ++ (stdout_op project <$> lines)
        ++ [OExit] ++ stderr_ops err ++ [OLog (rc_line acc rc) None]
  end.

Fixpoint loop_ops (env : RunEnv) (project : Project) (i : nat)
    (accs : list Account) : list Op :=
  match accs with
  | [] => []
  | acc :: rest =>
      account_ops (imapsync_bin env) project acc (outcome env i)
        ++ loop_ops env project (S i) rest
  end.

(** ["échouée" in log.lower() or "erreur" in log.lower()] *)
Definition failure_signal (log : string) : bool :=
  Str.contains "échouée" (Str.lower log) || Str.contains "erreur" (Str.lower log).

(** The final status (lines 759-764), from all the lines of the task. *)
Definition aggregate (lines : list string) : string :=
  if existsb failure_signal lines then Failed else Completed.

Definition final_status (t : Task) : Task := with_status (aggregate (logs t)) t.

Definition find_project (name : string) (projects : list Project) : option Project :=
  List.find (fun p => String.eqb (proj_name p) name) projects.

(** The first locked block (lines 653-667): the state it leaves and the
    blocks that remain, none when the function returns early. *)
Definition run_begin (env : RunEnv) (tid : string) (st : State) : State * list Op :=
  match sync_tasks st !! tid with
  | None => (st, [])
  | Some task =>
      match find_project (project_name task) (config st) with
      | None => (update_task tid (with_status "Erreur: Projet introuvable") st, [])
      | Some project =>
          if bin_exists env
          then (st, loop_ops env project 0 (selected_accounts task) ++ [OFinal])
          else (update_task tid
                  (fun t => with_status "Erreur: imapsync introuvable"
                     (append_log ("Binaire imapsync introuvable à " +:+ imapsync_bin env) t))
                  st, [])
      end
  end.

Definition set_alive (b : bool) (p : Proc) : Proc :=
  {| alive := b; terminated := terminated p |}.

Definition set_terminated (p : Proc) : Proc :=
  {| alive := alive p; terminated := true |}.

(** One block of the worker of task [tid], whose local [proc] is [proc]. *)
Definition exec_op (tid : string) (op : Op) (s : State * option nat)
  : State * option nat :=
  let (st, proc) := s in
  match op with
  | OLog line msg =>
      let st1 := update_task tid (append_log line) st in
      (match msg with Some m => set_message m st1 | None => st1 end, proc)
  | OPopen =>
      (set_procs (procs st ++ [ {| alive := true; terminated := false |} ]) st,
       Some (length (procs st)))
  | OStore => (update_task tid (with_process proc) st, proc)
  | OExit =>
      (match proc with
       | Some h => set_procs (alter (set_alive false) h (procs st)) st
       | None => st
       end, proc)
  | OFinal => (update_task tid final_status st, proc)
  end.

Definition exec_ops (tid : string) (ops : list Op) (s : State * option nat)
  : State * option nat :=
  fold_left (fun s op => exec_op tid op s) ops s.

(** The whole function, run without interruption. *)
Definition _run_imapsync_for_task (env : RunEnv) (tid : string) (st : State) : State :=
  let (st1, ops) := run_begin env tid st in
  fst (exec_ops tid ops (st1, None)).

(** ** The scheduler: [_start_sync], [_scheduled_sync], [_stop_sync] *)

Definition with_timer (h : option nat) (t : Task) : Task :=
  {| project_name := project_name t; status := status t; logs := logs t;
     thread := thread t; process := process t;
     selected_accounts := selected_accounts t; interval := interval t;
     timer := h; expanded := expanded t |}.

Definition new_thread (tid : string) (env : RunEnv) : Thread :=
  {| th_task := tid; th_env := env; th_proc := None; th_pc := Begin |}.

(** [threading.Thread(target=self._run_imapsync_for_task, args=(tid,))],
    stored in the task and started. *)
Definition start_thread (tid : string) (env : RunEnv) (st : State) : State :=
  set_threads (threads st ++ [new_thread tid env])
    (update_task tid (with_thread (Some (length (threads st)))) st).

(** [threading.Timer(interval * 60, self._scheduled_sync, args=(tid,))],
    stored in the task and started. *)
Definition start_timer (tid : string) (interval : Z) (st : State) : State :=
  set_timers (timers st ++ [ {| tm_task := tid; tm_delay := interval * 60;
                                tm_pending := true |} ])
    (update_task tid (with_timer (Some (length (timers st)))) st).

(** [f"{project['project_name']}_{uuid.uuid4().hex[:8]}"]; [uid] is the
    value of [uuid.uuid4().hex[:8]]. *)
Definition task_id_of (project : Project) (uid : string) : string :=
  proj_name project +:+ "_" +:+ uid.

(** [self.sync_tasks[task_id] = task]: a new key goes to the end. *)
Definition store_task (tid : string) (task : Task) (st : State) : State :=
  set_order (if decide (is_Some (sync_tasks st !! tid))
             then task_order st else task_order st ++ [tid])
    (set_tasks (<[tid := task]> (sync_tasks st)) st).

(** The three locked blocks of [_start_sync] are taken together: the task
    is stored, its thread is stored and started, and when the interval is
    positive its timer is stored and started. *)
Definition _start_sync (project : Project) (selected_accounts : list Account)
    (interval : Z) (uid : string) (env : RunEnv) (st : State) : State :=
  let task_id := task_id_of project uid in
  let st1 :=
    store_task task_id
      {| project_name := proj_name project; status := Running; logs := [];
         thread := None; process := None;
         selected_accounts := selected_accounts; interval := interval;
         timer := None; expanded := false |} st in
  let st2 := start_thread task_id env st1 in
  if 0 <? interval then start_timer task_id interval st2 else st2.

(** [task["status"] in ["En cours", "Terminée", "Erreur: échecs sur un ou
    plusieurs comptes"]] *)
Definition may_run_again (s : string) : bool :=
  bool_decide (s ∈ [Running; Completed; Failed]).

Definition _scheduled_sync (task_id : string) (env : RunEnv) (st : State) : State :=
  match sync_tasks st !! task_id with
  | None => st
  | Some task =>
      if may_run_again (status task) then start_thread task_id env st else st
  end.

(** [proc and proc.poll() is None]: the handle of the task's process when
    that process is alive. *)
Definition live_process (st : State) (task : Task) : option nat :=
  match process task with
  | Some h =>
      match procs st !! h with
      | Some p => if alive p then Some h else None
      | None => None
      end
  | None => None
  end.

(** The message a call of [popup_message] shows, and its [msg_type]. *)
Definition Popup : Type := string * string.

(** [popup_message(message, msg_type=...)] (lines 995-1023): the message is
    shown in the main window, and its first 60 characters become the text
    of the status bar.  The result is the state it leaves and what it has
    shown. *)
Definition popup_message (message msg_type : string) (st : State) : State * Popup :=
  (set_message (Str.take 60 message) st, (message, msg_type)).

Definition stopped_line : string := "Synchronisation arrêtée manuellement.".

Definition _stop_sync (task_id : string) (st : State) : State * Popup :=
  match sync_tasks st !! task_id with
  | None => popup_message ("Aucune synchro pour '" +:+ task_id +:+ "'.") "error" st
  | Some task =>
      match live_process st task with
      | Some h =>
          popup_message ("Sync '" +:+ task_id +:+ "' arrêtée.") "notification"
            (update_task task_id
               (fun t => append_log stopped_line (with_status Stopped t))
               (set_procs (alter set_terminated h (procs st)) st))
      | None =>
          popup_message ("Sync '" +:+ task_id +:+ "' n'est pas en cours.") "error" st
      end
  end.

(** ** Interleavings

    The engine runs as a sequence of events: each is one call of a scheduler
    operation, one block of one worker thread, or a move of the environment.
    Time is not measured: a pending timer may fire at any moment.  A worker
    reads the projects in its first block; an edit of the configuration
    after that block does not reach it. *)

Inductive Event :=
| EStart (project : Project) (selected : list Account) (interval : Z)
         (uid : string) (env : RunEnv)      (* _start_sync(...) *)
| EFire (h : nat) (env : RunEnv)            (* the timer of handle h fires *)
| EStop (tid : string)                      (* _stop_sync(tid) *)
| EThread (i : nat)                         (* the next block of thread i *)
| EProcExit (h : nat)                       (* the process of handle h ends *)
| EConfig (projects : list Project).        (* the user edits the projects *)

Definition set_pc (proc : option nat) (pc : Pc) (th : Thread) : Thread :=
  {| th_task := th_task th; th_env := th_env th; th_proc := proc; th_pc := pc |}.

Definition thread_step (i : nat) (st : State) : option State :=
  match threads st !! i with
  | None => None
  | Some th =>
      match th_pc th with
      | Begin =>
          let (st1, ops) := run_begin (th_env th) (th_task th) st in
          Some (set_threads (<[i := set_pc (th_proc th) (Steps ops) th]> (threads st1)) st1)
      | Steps [] => None
      | Steps (op :: todo) =>
          let (st1, proc) := exec_op (th_task th) op (st, th_proc th) in
          Some (set_threads (<[i := set_pc proc (Steps todo) th]> (threads st1)) st1)
      end
  end.

Definition fired (tm : Timer) : Timer :=
  {| tm_task := tm_task tm; tm_delay := tm_delay tm; tm_pending := false |}.

(** A step is taken only when its event can happen: a task id comes out of
    [uuid4] fresh, a timer fires once, a thread that has returned does
    nothing more, and only a living process ends. *)
Definition step (e : Event) (st : State) : option State :=
  match e with
  | EStart project selected interval uid env =>
      match sync_tasks st !! task_id_of project uid with
      | Some _ => None
      | None => Some (_start_sync project selected interval uid env st)
      end
  | EFire h env =>
      match timers st !! h with
      | Some tm =>
          if tm_pending tm
          then Some (_scheduled_sync (tm_task tm) env
                       (set_timers (<[h := fired tm]> (timers st)) st))
          else None
      | None => None
      end
  | EStop tid => Some (fst (_stop_sync tid st))
  | EThread i => thread_step i st
  | EProcExit h =>
      match procs st !! h with
      | Some p =>
          if alive p
          then Some (set_procs (<[h := set_alive false p]> (procs st)) st)
          else None
      | None => None
      end
  | EConfig projects => Some (set_config projects st)
  end.

Fixpoint run_trace (tr : list Event) (st : State) : option State :=
  match tr with
  | [] => Some st
  | e :: tr' =>
      match step e st with
      | Some st' => run_trace tr' st'
      | None => None
      end
  end.

(** A thread is in flight from its start until its function returns. *)
Definition in_flight (th : Thread) : bool :=
  match th_pc th with
  | Steps [] => false
  | _ => true
  end.

Definition threads_of (tid : string) (st : State) : list Thread :=
  filter (fun th => th_task th = tid) (threads st).

Definition in_flight_of (tid : string) (st : State) : list Thread :=
  filter (fun th => in_flight th = true) (threads_of tid st).

Definition pending_timers_of (tid : string) (st : State) : list Timer :=
  filter (fun tm => tm_task tm = tid ∧ tm_pending tm = true) (timers st).

(** ** The callers of [_start_sync]

    [action_launch_sync] from the moment the user validates a project
    (lines 518-544; [action_add_sync_task] ends the same way).  What the
    user enters comes as arguments: [choice] is the index of the project
    ([None] when the menu is left with q), [selected] the result of
    [_select_accounts_to_sync], [interval_input] the integer typed ([None]
    when [int] raises), [runs i] the uuid and the environment of the i-th
    task started. *)

Fixpoint start_each (project : Project) (interval : Z)
    (runs : nat -> string * RunEnv) (i : nat) (selected : list Account)
    (st : State) : State :=
  match selected with
  | [] => st
  | acc :: rest =>
      start_each project interval runs (S i) rest
        (_start_sync project [acc] interval (fst (runs i)) (snd (runs i)) st)
  end.

Definition action_launch_sync (choice : option nat) (selected : list Account)
    (interval_input : option Z) (runs : nat -> string * RunEnv) (st : State)
  : State * option Popup :=
  match config st with
  | [] => prod_map id Some (popup_message "Aucun projet disponible." "error" st)
  | _ :: _ =>
      match choice ≫= (fun idx => config st !! idx) with
      | None => (st, None)
      | Some project =>
          match accounts project with
          | [] =>
              prod_map id Some
                (popup_message "Aucun compte à synchroniser dans ce projet." "error" st)
          | _ :: _ =>
              match selected with
              | [] => prod_map id Some (popup_message "Aucun compte sélectionné." "info" st)
              | _ :: _ =>
                  let interval := default 60 interval_input in
                  let project' := set_sync_interval interval project in
                  let st1 :=
                    set_config (<[default 0%nat choice := project']> (config st)) st in
                  prod_map id Some
                    (popup_message "Synchronisation démarrée." "success"
                       (start_each project' interval runs 0 selected st1))
              end
          end
      end
  end.

(** ** The log consumers: [_search_logs] and [_export_logs] *)

(** [self.sync_tasks.items()] *)
Definition items (st : State) : list (string * Task) :=
  omap (fun tid => (fun t => (tid, t)) <$> sync_tasks st !! tid) (task_order st).

(** The list [matched] that [_search_logs] builds for a search term. *)
Definition matched (term : string) (st : State) : list string :=
  '(tid, t) ← items st;
  line ← filter (fun line => Str.contains (Str.lower term) (Str.lower line) = true) (logs t);
  ["[" +:+ tid +:+ "] " +:+ line].

(** [_search_logs], for the term the user typed: the message it pops up,
    or the lines it prints in the main window. *)
Definition _search_logs (term : string) (st : State) : Popup + list string :=
  if Str.truthy term
  then match matched term st with
       | [] => inl ("Aucun log correspondant.", "info")
       | found => inr (("=== Résultats: '" +:+ term +:+ "' ===") :: "" :: found)
       end
  else inl ("Recherche annulée.", "info").

Definition nl : string := String (ascii_of_nat 10) "".

Definition export_task (tid : string) (t : Task) : string :=
  "=== Tâche: " +:+ tid +:+ " ===" +:+ nl
  +:+ "Projet: " +:+ project_name t +:+ nl
  +:+ "Status: " +:+ status t +:+ nl +:+ "Logs:" +:+ nl
  +:+ String.concat "" ((fun line => line +:+ nl) <$> logs t)
  +:+ nl.

(** [_export_logs], for the file name the user typed: what it writes to the
    file, [None] when the export is cancelled (a file that cannot be written
    is not modelled). *)
Definition _export_logs (filename : string) (st : State) : option string :=
  if Str.truthy filename
  then Some (String.concat "" ((fun '(tid, t) => export_task tid t) <$> items st))
  else None.

(** ** What the properties below speak about *)

(** The lines a block appends to the log of its task. *)
Definition op_lines (op : Op) : list string :=
  match op with
  | OLog line _ => [line]
  | _ => []
  end.

Definition ops_lines (ops : list Op) : list string := ops ≫= op_lines.

(** The lines one execution of the account sequence appends. *)
Definition run_lines (env : RunEnv) (project : Project) (accs : list Account)
  : list string :=
  ops_lines (loop_ops env project 0 accs).

Definition status_of (tid : string) (st : State) : option string :=
  status <$> sync_tasks st !! tid.

Definition logs_of (tid : string) (st : State) : list string :=
  default [] (logs <$> sync_tasks st !! tid).

(** What a block does to the task it works on. *)
Definition task_op (op : Op) (proc : option nat) : Task -> Task :=
  match op with
  | OLog line _ => append_log line
  | OStore => with_process proc
  | OFinal => final_status
  | OPopen | OExit => fun t => t
  end.

(** What follows the second password on the logged command line. *)
Definition cmd_rest (project : Project) (acc : Account) : string :=
  match (option_args (default no_options (imapsync_options project))
         ++ subfolder_args (subfolder_of acc))%list with
  | [] => ""
  | arg :: args => " " +:+ Str.join " " (arg :: args)
  end.

(** The task [_start_sync] leaves in the table. *)
Definition started_task (project : Project) (selected : list Account)
    (interval : Z) (st : State) : Task :=
  {| project_name := proj_name project; status := Running; logs := [];
     thread := Some (length (threads st)); process := None;
     selected_accounts := selected; interval := interval;
     timer := if 0 <? interval then Some (length (timers st)) else None;
     expanded := false |}.

(** The timer [_start_sync] arms when the interval is positive. *)
Definition started_timer (tid : string) (interval : Z) : Timer :=
  {| tm_task := tid; tm_delay := interval * 60; tm_pending := true |}.

(** A task as an operation may leave it: same interval, and a log that
    only grew at its end. *)
Definition evolves (t t' : Task) : Prop :=
  interval t' = interval t ∧ logs t `prefix_of` logs t'.

(** Every task of [st] is still there in [st'] and has evolved; no task
    has appeared. *)
Definition keeps_tasks (st st' : State) : Prop :=
  ∀ k, option_Forall2 evolves (sync_tasks st !! k) (sync_tasks st' !! k).

(** All the timers ever created for a task, fired or not. *)
Definition timers_of (tid : string) (st : State) : list Timer :=
  filter (fun tm => tm_task tm = tid) (timers st).

(** What holds of the threads and timers of every task id in every state
    the engine reaches: an id that is not in the table has none; a task has
    at most two threads, and each pending timer stands for one that has yet
    to be started; a task without positive interval has no timer and at
    most one thread. *)
Definition counted (st : State) : Prop :=
  ∀ tid,
    match sync_tasks st !! tid with
    | None => length (threads_of tid st) = 0%nat ∧ length (timers_of tid st) = 0%nat
    | Some t =>
        (length (threads_of tid st) + length (pending_timers_of tid st) ≤ 2)%nat
        ∧ (interval t ≤ 0 →
           length (timers_of tid st) = 0%nat ∧ (length (threads_of tid st) ≤ 1)%nat)
    end.

(** Nothing of the engine has changed from [st] to [st']: the task table
    and its order, the threads, the timers, the processes and the
    configuration; the text of the status bar may differ. *)
Definition same_engine (st st' : State) : Prop :=
  sync_tasks st' = sync_tasks st ∧ task_order st' = task_order st
  ∧ threads st' = threads st ∧ timers st' = timers st
  ∧ procs st' = procs st ∧ config st' = config st.

(** A state without its record of threads: what the worker itself reads
    and writes. *)
Definition forget_threads (st : State) : State := set_threads [] st.

(** Every task of [st] is still in the table of [st'] and has evolved. *)
Definition tasks_grow (st st' : State) : Prop :=
  ∀ k t, sync_tasks st !! k = Some t →
         ∃ t', sync_tasks st' !! k = Some t' ∧ evolves t t'.

(** The task [tid], which was [t], is still in the table, and its log is
    the log of [t] followed by new lines. *)
Definition grown (tid : string) (t : Task) (st' : State) : Prop :=
  ∃ t' new, sync_tasks st' !! tid = Some t' ∧ logs t' = logs t ++ new.

(** ** A small scenario to run the definitions on *)

Module Demo.

Definition alice : Account :=
  {| source_email := Some "alice@old.example"; target_email := None;
     password := Some "s3cret"; subfolder := None |}.

Definition bob : Account :=
  {| source_email := Some "bob@old.example";
     target_email := Some "bob@new.example";
     password := Some "hunter2"; subfolder := Some "Archive" |}.

Definition carol : Account :=
  {| source_email := Some "carol@old.example"; target_email := None;
     password := Some "pa55"; subfolder := None |}.

Definition acme : Project :=
  {| proj_name := "acme"; old_server_url := Some "imap.old.example";
     new_server_url := Some "imap.new.example"; imapsync_options := None;
     accounts := [alice; bob; carol]; sync_interval := None |}.

Definition bin : string := "/opt/imapsyncui/bin/imapsync".

(** Every account exits with the code at its position in [codes]. *)
Definition exits (codes : list Z) : RunEnv :=
  {| imapsync_bin := bin; bin_exists := true;
     outcome := fun i => Exited [] None (nth i codes 0) |}.

Definition uid : string := "0a1b2c3d".
Definition tid : string := "acme_0a1b2c3d".

(** The state just after [_start_sync(acme, accs, interval)]. *)
Definition started (accs : list Account) (interval : Z) (env : RunEnv) : State :=
  _start_sync acme accs interval uid env (initial [acme]).

(** The task it has stored. *)
Definition fresh_task (accs : list Account) (interval : Z) : Task :=
  {| project_name := "acme"; status := Running; logs := [];
     thread := Some 0%nat; process := None; selected_accounts := accs;
     interval := interval;
     timer := if 0 <? interval then Some 0%nat else None; expanded := false |}.

(** The first account's output is not valid UTF-8, the second one succeeds. *)
Definition undecodable : RunEnv :=
  {| imapsync_bin := bin; bin_exists := true;
     outcome := fun i =>
       match i with
       | O => ReadFailed ["Transfer started"]
                "'utf-8' codec can't decode byte 0xe9 in position 12: invalid continuation byte"
       | _ => Exited [] None 0
       end |}.

(** A first execution that fails, up to the return of its thread. *)
Definition first_run_fails : list Event :=
  EStart acme [alice] 1 uid (exits [1]) :: replicate 7 (EThread 0).

(** Then the timer fires and the second execution, where the account exits
    with code 0 and prints nothing, runs up to its return. *)
Definition clean_rerun : list Event :=
  EFire 0 (exits [0]) :: replicate 7 (EThread 1).

(** The project is removed from the configuration before the worker of a
    task submitted for it gets to its first block. *)
Definition project_removed : list Event :=
  [EStart acme [alice] 5 uid (exits [0]); EConfig []; EThread 0].

(** The worker of a task with a five minute interval has launched the
    process of its account and stored the handle. *)
Definition process_running : list Event :=
  EStart acme [alice] 5 uid (exits [0]) :: replicate 4 (EThread 0).


(** An execution that succeeds, the timer, and a second execution that
    succeeds, each up to the return of its thread. *)
Definition two_clean_runs : list Event :=
  EStart acme [alice] 1 uid (exits [0]) :: replicate 7 (EThread 0)
    ++ EFire 0 (exits [0]) :: replicate 7 (EThread 1).

(** A task is stopped while its process runs; the process, terminated,
    exits with code -15 and the worker goes on to its return. *)
Definition stopped_while_running : list Event :=
  EStart acme [alice] 5 uid (exits [-15]) :: replicate 4 (EThread 0)
    ++ [EStop tid].

Definition worker_returns : list Event := replicate 3 (EThread 0).

(** Later on another task of the same project is submitted, and its worker
    takes its first blocks. *)
Definition another_launch : list Event :=
  EStart acme [bob] 1 "4e5f6a7b" (exits [0]) :: replicate 3 (EThread 2).


(** A task submitted without recurrence. *)
Definition run_once : State := started [alice] 0 (exits [0]).

(** The identifiers [uuid4] gives to the tasks of a launch, one after the
    other, with what their processes will do. *)
Definition draws (i : nat) : string * RunEnv :=
  (match i with O => uid | _ => "4e5f6a7b" end, exits [0]).

(** The state after the launch of alice and bob, every five minutes. *)
Definition launched : State :=
  (action_launch_sync (Some 0%nat) [alice; bob] (Some 5) draws (initial [acme])).1.

(** The state a trace leads to from the start of the program. *)
Definition state_after (tr : list Event) : State :=
  default (initial []) (run_trace tr (initial [acme])).

(** The task of [process_running] at the end of that trace: its command
    line is logged and its process is running. *)
Definition running_task : Task :=
  with_process (Some 0%nat)
    (append_log (cmd_line bin acme alice) (fresh_task [alice] 5)).

End Demo.


(** * Properties *)

(** ** Blocks of the worker, seen from the task table *)

Lemma lookup_update_task tid f st k :
  sync_tasks (update_task tid f st) !! k =
  if decide (tid = k) then f <$> sync_tasks st !! k else sync_tasks st !! k.
Proof. unfold update_task; cbn. rewrite lookup_alter. by case_decide; subst. Qed.

Lemma exec_op_tasks tid op st p k :
  sync_tasks (exec_op tid op (st, p)).1 !! k =
  if decide (tid = k) then task_op op p <$> sync_tasks st !! k
  else sync_tasks st !! k.
Proof.
  destruct op as [line [m|]| | | |]; try destruct p; cbn;
    rewrite ?lookup_alter; case_decide; subst; try done;
    by destruct (sync_tasks st !! k).
Qed.

Lemma exec_op_threads tid op s : threads (exec_op tid op s).1 = threads s.1.
Proof. destruct s as [st p], op as [? [?|]| | | |]; cbn; try done. by destruct p. Qed.

Lemma exec_op_timers tid op s : timers (exec_op tid op s).1 = timers s.1.
Proof. destruct s as [st p], op as [? [?|]| | | |]; cbn; try done. by destruct p. Qed.

Lemma exec_op_order tid op s : task_order (exec_op tid op s).1 = task_order s.1.
Proof. destruct s as [st p], op as [? [?|]| | | |]; cbn; try done. by destruct p. Qed.

Lemma task_op_logs op p t : logs (task_op op p t) = logs t ++ op_lines op.
Proof. destruct op; cbn; by rewrite ?app_nil_r. Qed.

Lemma task_op_interval op p t : interval (task_op op p t) = interval t.
Proof. by destruct op. Qed.

Lemma task_op_status op p t :
  op ≠ OFinal → status (task_op op p t) = status t.
Proof. by destruct op. Qed.

Lemma exec_ops_cons tid op ops s :
  exec_ops tid (op :: ops) s = exec_ops tid ops (exec_op tid op s).
Proof. done. Qed.

Lemma exec_ops_app tid ops1 ops2 s :
  exec_ops tid (ops1 ++ ops2) s = exec_ops tid ops2 (exec_ops tid ops1 s).
Proof. unfold exec_ops. apply fold_left_app. Qed.

(** The blocks of the account loop append their lines and leave the status
    alone; the other tasks are not touched. *)
Lemma exec_ops_loop tid ops st p t :
  sync_tasks st !! tid = Some t → OFinal ∉ ops →
  ∃ t', sync_tasks (exec_ops tid ops (st, p)).1 !! tid = Some t'
        ∧ logs t' = logs t ++ ops_lines ops
        ∧ status t' = status t ∧ interval t' = interval t.
Proof.
  revert st p t. induction ops as [|op ops IH]; intros st p t Ht Hfin.
  - exists t. by rewrite app_nil_r.
  - rewrite exec_ops_cons. destruct (exec_op tid op (st, p)) as [st1 p1] eqn:E.
    assert (H1 : sync_tasks st1 !! tid = Some (task_op op p t)).
    { replace st1 with (exec_op tid op (st, p)).1 by by rewrite E.
      rewrite exec_op_tasks, decide_True by done. by rewrite Ht. }
    destruct (IH st1 p1 _ H1) as (t' & Ht' & Hl & Hs & Hi).
    { intros ?; apply Hfin; by right. }
    exists t'. split; [done|]. rewrite Hl, Hs, Hi, task_op_logs, task_op_interval.
    split_and!; [by rewrite <-app_assoc | | done].
    apply task_op_status. intros ->. apply Hfin. by left.
Qed.

Lemma exec_ops_others tid ops s k :
  tid ≠ k → sync_tasks (exec_ops tid ops s).1 !! k = sync_tasks s.1 !! k.
Proof.
  intros Hk. revert s. induction ops as [|op ops IH]; intros [st p]; [done|].
  by rewrite exec_ops_cons, IH, exec_op_tasks, decide_False.
Qed.

(** ** Strings *)

Local Ltac app_step := unfold String.append; fold String.append.

Lemma str_app_assoc (a b c : string) : (a +:+ b) +:+ c = a +:+ (b +:+ c).
Proof. induction a as [|x a IH]; app_step; [done|]. by f_equal. Qed.

Lemma str_app_nil_r (a : string) : a +:+ "" = a.
Proof. induction a as [|x a IH]; app_step; [done|]. by f_equal. Qed.

Lemma prefix_self_app (n b : string) : String.prefix n (n +:+ b) = true.
Proof.
  induction n as [|x n IH]; app_step; cbn; [by destruct b|].
  destruct (ascii_dec x x); [done|congruence].
Qed.

Lemma contains_app_r (n a b : string) :
  Str.contains n b = true → Str.contains n (a +:+ b) = true.
Proof.
  intros Hb. induction a as [|x a IH]; app_step; cbn; [done|].
  rewrite IH. apply orb_true_r.
Qed.

Lemma prefix_app_l (n s b : string) :
  String.prefix n s = true → String.prefix n (s +:+ b) = true.
Proof.
  revert n. induction s as [|c s IH]; intros [|d n] H; app_step; cbn in H |- *;
    try done.
  - by destruct b.
  - destruct (ascii_dec d c); [auto|done].
Qed.

Lemma contains_app_l (n s b : string) :
  Str.contains n s = true → Str.contains n (s +:+ b) = true.
Proof.
  induction s as [|c s IH]; intros H; app_step; cbn in H |- *.
  - destruct n; [by destruct b|done].
  - apply orb_true_iff in H as [H|H]; apply orb_true_iff; [left|right; auto].
    by apply (prefix_app_l n (String c s) b).
Qed.

Lemma contains_prefix (n s : string) :
  String.prefix n s = true → Str.contains n s = true.
Proof. intros H. destruct s; unfold Str.contains; by rewrite H. Qed.

Lemma contains_infix (n a b : string) : Str.contains n (a +:+ n +:+ b) = true.
Proof. apply contains_app_r, contains_prefix, prefix_self_app. Qed.

Lemma concat_empty_cons (x : string) (l : list string) :
  String.concat "" (x :: l) = x +:+ String.concat "" l.
Proof. destruct l; cbn; [by rewrite str_app_nil_r|done]. Qed.

Lemma concat_empty_elem (x : string) (l : list string) :
  x ∈ l → ∃ a b, String.concat "" l = a +:+ x +:+ b.
Proof.
  induction 1 as [x l|x y l _ (a & b & IH)]; rewrite concat_empty_cons.
  - by exists "", (String.concat "" l).
  - exists (y +:+ a), b. by rewrite IH, str_app_assoc.
Qed.

Lemma failure_signal_failed_line acc rc : failure_signal (failed_line acc rc) = true.
Proof. unfold failure_signal, failed_line. vm_compute. reflexivity. Qed.

Lemma failure_signal_stderr_line e : failure_signal (stderr_line e) = true.
Proof.
  unfold failure_signal, stderr_line. apply orb_true_iff; right.
  vm_compute. reflexivity.
Qed.

Lemma aggregate_cases lines : aggregate lines = Failed ∨ aggregate lines = Completed.
Proof. unfold aggregate. destruct (existsb _ _); auto. Qed.

Lemma aggregate_failed lines line :
  line ∈ lines → failure_signal line = true → aggregate lines = Failed.
Proof.
  intros Hin Hs. unfold aggregate.
  replace (existsb failure_signal lines) with true; [done|].
  symmetry. apply existsb_exists. exists line. by rewrite <-list_elem_of_In.
Qed.

Lemma aggregate_completed lines :
  (∀ line, line ∈ lines → failure_signal line = false) → aggregate lines = Completed.
Proof.
  intros H. unfold aggregate.
  destruct (existsb failure_signal lines) eqn:E; [|done].
  apply existsb_exists in E as (l & Hl & E). rewrite <-list_elem_of_In in Hl.
  rewrite (H l Hl) in E. done.
Qed.

(** ** The worker, run from its first block to its last *)

Local Ltac not_among H :=
  repeat match type of H with
  | _ ∈ [] => by apply elem_of_nil in H
  | _ ∈ _ :: _ => apply elem_of_cons in H as [H|H]; [discriminate H|]
  | _ ∈ _ ++ _ => apply elem_of_app in H as [H|H]
  | _ ∈ _ <$> _ => apply list_elem_of_fmap in H as (? & H & _); discriminate H
  end.

Lemma account_ops_no_final bin project acc o : OFinal ∉ account_ops bin project acc o.
Proof.
  unfold account_ops, stderr_ops, stdout_op. intros H.
  destruct o as [msg|lines msg|lines [e|] rc]; not_among H.
Qed.

Lemma loop_ops_no_final env project i accs : OFinal ∉ loop_ops env project i accs.
Proof.
  revert i. induction accs as [|acc accs IH]; intros i; cbn [loop_ops];
    [by apply not_elem_of_nil|].
  rewrite elem_of_app. intros [H|H]; [by apply account_ops_no_final in H|by apply IH in H].
Qed.

Lemma loop_ops_lookup env project j accs i acc :
  accs !! i = Some acc →
  ∃ before after,
    loop_ops env project j accs =
    before ++ account_ops (imapsync_bin env) project acc (outcome env (j + i)) ++ after.
Proof.
  revert j i. induction accs as [|a accs IH]; intros j [|i] Hi; simplify_eq/=.
  - exists [], (loop_ops env project (S j) accs). by rewrite Nat.add_0_r.
  - destruct (IH (S j) i Hi) as (b & c & ->).
    exists (account_ops (imapsync_bin env) project a (outcome env j) ++ b), c.
    by rewrite <-app_assoc, Nat.add_succ_r.
Qed.

(** Whatever the account at position [i] does, its blocks are run, and
    their lines are among those of the execution. *)
Lemma account_lines_in_run env project accs i acc line :
  accs !! i = Some acc →
  line ∈ ops_lines (account_ops (imapsync_bin env) project acc (outcome env i)) →
  line ∈ run_lines env project accs.
Proof.
  intros Hi Hl. destruct (loop_ops_lookup env project 0 accs i acc Hi) as (b & c & E).
  unfold run_lines, ops_lines in *. rewrite E, !bind_app, !elem_of_app. auto.
Qed.

Lemma cmd_line_in_account bin project acc o :
  cmd_line bin project acc ∈ ops_lines (account_ops bin project acc o).
Proof. unfold ops_lines, account_ops. rewrite bind_cons. cbn. by left. Qed.

Lemma rc_line_in_account bin project acc lines err rc :
  rc_line acc rc ∈ ops_lines (account_ops bin project acc (Exited lines err rc)).
Proof.
  unfold ops_lines, account_ops. rewrite bind_cons, !bind_app, !elem_of_app.
  do 5 right. cbn. by left.
Qed.

Lemma exception_line_in_account bin project acc o msg :
  o = LaunchFailed msg ∨ (∃ lines, o = ReadFailed lines msg) →
  exception_line msg ∈ ops_lines (account_ops bin project acc o).
Proof.
  unfold ops_lines, account_ops. intros [->|[lines ->]].
  - rewrite bind_cons, elem_of_app. right. cbn. by left.
  - rewrite bind_cons, !bind_app, !elem_of_app. do 3 right. cbn. by left.
Qed.

Lemma run_begin_ok env tid st t project :
  sync_tasks st !! tid = Some t →
  find_project (project_name t) (config st) = Some project →
  bin_exists env = true →
  run_begin env tid st = (st, loop_ops env project 0 (selected_accounts t) ++ [OFinal]).
Proof. intros Ht Hp Hb. unfold run_begin. by rewrite Ht, Hp, Hb. Qed.

Lemma run_missing_project env tid st t :
  sync_tasks st !! tid = Some t →
  find_project (project_name t) (config st) = None →
  sync_tasks (_run_imapsync_for_task env tid st) !! tid
  = Some (with_status "Erreur: Projet introuvable" t).
Proof.
  intros Ht Hp. unfold _run_imapsync_for_task, run_begin. rewrite Ht, Hp. cbn.
  by rewrite lookup_alter_eq, Ht.
Qed.

Lemma run_ok env tid st t project :
  sync_tasks st !! tid = Some t →
  find_project (project_name t) (config st) = Some project →
  bin_exists env = true →
  ∃ t', sync_tasks (_run_imapsync_for_task env tid st) !! tid = Some t'
        ∧ logs t' = logs t ++ run_lines env project (selected_accounts t)
        ∧ status t' = aggregate (logs t')
        ∧ interval t' = interval t.
Proof.
  intros Ht Hp Hb. unfold _run_imapsync_for_task.
  rewrite (run_begin_ok _ _ _ _ _ Ht Hp Hb), exec_ops_app.
  destruct (exec_ops_loop tid (loop_ops env project 0 (selected_accounts t))
              st None t Ht (loop_ops_no_final _ _ _ _)) as (t1 & H1 & Hl & _ & Hi).
  destruct (exec_ops tid (loop_ops env project 0 (selected_accounts t)) (st, None))
    as [st1 p1]; cbn in H1 |- *.
  exists (final_status t1). rewrite lookup_alter_eq, H1. cbn.
  by rewrite Hl, Hi.
Qed.

Lemma run_order env tid st : task_order (_run_imapsync_for_task env tid st) = task_order st.
Proof.
  unfold _run_imapsync_for_task.
  assert (Hb : task_order (run_begin env tid st).1 = task_order st).
  { unfold run_begin. repeat case_match; done. }
  destruct (run_begin env tid st) as [st1 ops]; cbn in Hb. rewrite <-Hb.
  generalize (@None nat). revert st1 Hb. induction ops as [|op ops IH]; intros st1 Hb p; [done|].
  rewrite exec_ops_cons. destruct (exec_op tid op (st1, p)) as [st2 p2] eqn:E.
  rewrite IH.
  - replace st2 with (exec_op tid op (st1, p)).1 by by rewrite E.
    by rewrite exec_op_order.
  - replace st2 with (exec_op tid op (st1, p)).1 by by rewrite E.
    by rewrite exec_op_order.
Qed.

(** ** Claim C3: the aggregate status *)

(** C3, as stated, fails: the final status looks at every line of the task,
    those of earlier executions included.  After a first execution with exit
    code 1, the execution started by the timer exits with code 0 and logs no
    failure line, and the status is still Failed. *)
Lemma rerun_after_failure_stays_failed :
  logs_of Demo.tid <$> run_trace Demo.first_run_fails (initial [Demo.acme])
    = Some [cmd_line Demo.bin Demo.acme Demo.alice; failed_line Demo.alice 1]
  ∧ outcome (Demo.exits [0]) 0 = Exited [] None 0
  ∧ logs_of Demo.tid
      <$> run_trace (Demo.first_run_fails ++ Demo.clean_rerun) (initial [Demo.acme])
    = Some ([cmd_line Demo.bin Demo.acme Demo.alice; failed_line Demo.alice 1]
            ++ [cmd_line Demo.bin Demo.acme Demo.alice; ok_line Demo.alice])
  ∧ existsb failure_signal
      [cmd_line Demo.bin Demo.acme Demo.alice; ok_line Demo.alice] = false
  ∧ status_of Demo.tid
      <$> run_trace (Demo.first_run_fails ++ Demo.clean_rerun) (initial [Demo.acme])
    = Some (Some Failed)
  ∧ Failed ≠ Completed.
Proof. split_and!; try (vm_compute; reflexivity). discriminate. Qed.

(** C3 (amended): when the account sequence of a task finishes, the status
    is computed once, after the last account, from all the lines of the
    task's log, earlier executions included: Failed when one of them
    contains a failure signal, Completed otherwise.  The account loop itself
    leaves the status alone.  An account that exits non-zero forces Failed;
    a log free of failure signals before and during the execution gives
    Completed.  From an empty log, exit codes 0,0,0 give Completed and
    0,1,0 give Failed. *)
Theorem aggregate_status_after_run :
  (∀ env tid st t project,
     sync_tasks st !! tid = Some t →
     find_project (project_name t) (config st) = Some project →
     bin_exists env = true →
     ∃ t1 t',
       sync_tasks (exec_ops tid (loop_ops env project 0 (selected_accounts t))
                     (st, None)).1 !! tid = Some t1
       ∧ status t1 = status t
       ∧ sync_tasks (_run_imapsync_for_task env tid st) !! tid = Some t'
       ∧ logs t' = logs t ++ run_lines env project (selected_accounts t)
       ∧ status t' = (if existsb failure_signal (logs t') then Failed else Completed)
       ∧ (∀ i acc lines err rc,
            selected_accounts t !! i = Some acc →
            outcome env i = Exited lines err rc → rc ≠ 0 → status t' = Failed)
       ∧ (∀ line, line ∈ logs t' → failure_signal line = true → status t' = Failed)
       ∧ ((∀ line, line ∈ logs t → failure_signal line = false) →
          (∀ line, line ∈ run_lines env project (selected_accounts t) →
                   failure_signal line = false) →
          status t' = Completed))
  ∧ status_of Demo.tid
      (_run_imapsync_for_task (Demo.exits [0; 0; 0]) Demo.tid
         (Demo.started [Demo.alice; Demo.bob; Demo.carol] 0 (Demo.exits [0; 0; 0])))
    = Some Completed
  ∧ status_of Demo.tid
      (_run_imapsync_for_task (Demo.exits [0; 1; 0]) Demo.tid
         (Demo.started [Demo.alice; Demo.bob; Demo.carol] 0 (Demo.exits [0; 1; 0])))
    = Some Failed.
Proof.
  split_and!; [|vm_compute; reflexivity..].
  intros env tid st t project Ht Hp Hb.
  destruct (exec_ops_loop tid (loop_ops env project 0 (selected_accounts t))
              st None t Ht (loop_ops_no_final _ _ _ _)) as (t1 & H1 & _ & Hs1 & _).
  destruct (run_ok env tid st t project Ht Hp Hb) as (t' & Ht' & Hl & Hs & _).
  exists t1, t'. split_and!; try done.
  - intros i acc lines err rc Hi Ho Hrc. rewrite Hs.
    apply aggregate_failed with (failed_line acc rc);
      [|apply failure_signal_failed_line].
    rewrite Hl, elem_of_app. right.
    apply account_lines_in_run with i acc; [done|]. rewrite Ho.
    replace (failed_line acc rc) with (rc_line acc rc); [apply rc_line_in_account|].
    unfold rc_line. by rewrite (proj2 (Z.eqb_neq rc 0) Hrc).
  - intros line Hin Hsig. rewrite Hs. by apply aggregate_failed with line.
  - intros Hold Hnew. rewrite Hs. apply aggregate_completed.
    intros line. rewrite Hl, elem_of_app. intros [?|?]; auto.
Qed.

Lemma aggregate_status_after_run_witness :
  status_of Demo.tid
    (_run_imapsync_for_task (Demo.exits [0; 1; 0]) Demo.tid
       (Demo.started [Demo.alice; Demo.bob; Demo.carol] 0 (Demo.exits [0; 1; 0])))
  = Some Failed.
Proof.
  destruct aggregate_status_after_run as [H _].
  destruct (H (Demo.exits [0; 1; 0]) Demo.tid
              (Demo.started [Demo.alice; Demo.bob; Demo.carol] 0 (Demo.exits [0; 1; 0]))
              (Demo.fresh_task [Demo.alice; Demo.bob; Demo.carol] 0) Demo.acme)
    as (t1 & t' & _ & _ & Ht' & _ & _ & Hrc & _);
    [vm_compute; reflexivity..|].
  unfold status_of. rewrite Ht'. cbn. f_equal.
  apply (Hrc 1%nat Demo.bob [] None 1); [reflexivity|reflexivity|lia].
Defined.

(** ** Claim C7: failure paths and the log *)

(** The paths that do log: a missing binary, a launch that raises, a read
    that raises, a non-zero exit code. *)
Lemma run_missing_binary env tid st t project :
  sync_tasks st !! tid = Some t →
  find_project (project_name t) (config st) = Some project →
  bin_exists env = false →
  sync_tasks (_run_imapsync_for_task env tid st) !! tid
  = Some (with_status "Erreur: imapsync introuvable"
            (append_log ("Binaire imapsync introuvable à " +:+ imapsync_bin env) t)).
Proof.
  intros Ht Hp Hb. unfold _run_imapsync_for_task, run_begin. rewrite Ht, Hp, Hb. cbn.
  by rewrite lookup_alter_eq, Ht.
Qed.

Lemma account_failure_is_logged env tid st t project i acc :
  sync_tasks st !! tid = Some t →
  find_project (project_name t) (config st) = Some project →
  bin_exists env = true →
  selected_accounts t !! i = Some acc →
  ∃ line,
    line ∈ logs_of tid (_run_imapsync_for_task env tid st)
    ∧ match outcome env i with
      | LaunchFailed msg | ReadFailed _ msg => line = exception_line msg
      | Exited _ _ rc => line = rc_line acc rc
      end.
Proof.
  intros Ht Hp Hb Hi.
  destruct (run_ok env tid st t project Ht Hp Hb) as (t' & Ht' & Hl & _).
  unfold logs_of. rewrite Ht'. cbn. rewrite Hl. setoid_rewrite elem_of_app.
  destruct (outcome env i) as [msg|lines msg|lines err rc] eqn:Ho.
  - exists (exception_line msg). split; [right|done].
    apply account_lines_in_run with i acc; [done|].
    apply exception_line_in_account. rewrite Ho. by left.
  - exists (exception_line msg). split; [right|done].
    apply account_lines_in_run with i acc; [done|].
    apply exception_line_in_account. rewrite Ho. right. by exists lines.
  - exists (rc_line acc rc). split; [right|done].
    apply account_lines_in_run with i acc; [done|].
    rewrite Ho. apply rc_line_in_account.
Qed.

(** C7 (the code departs from the claim): when the project of a task is no
    longer in the configuration, the worker sets the status to
    "Erreur: Projet introuvable" and returns; the log of the task stays
    empty. *)
Theorem missing_project_is_not_logged :
  status_of Demo.tid <$> run_trace Demo.project_removed (initial [Demo.acme])
    = Some (Some "Erreur: Projet introuvable")
  ∧ logs_of Demo.tid <$> run_trace Demo.project_removed (initial [Demo.acme])
    = Some []
  ∧ (in_flight_of Demo.tid <$> run_trace Demo.project_removed (initial [Demo.acme]))
    = Some [].
Proof. split_and!; vm_compute; reflexivity. Qed.

(** ** Claim C8: a failing account and the rest of the sequence *)

(** Every account of the sequence is run, whatever the others did: its
    command line is logged. *)
Lemma every_account_is_run env tid st t project i acc :
  sync_tasks st !! tid = Some t →
  find_project (project_name t) (config st) = Some project →
  bin_exists env = true →
  selected_accounts t !! i = Some acc →
  cmd_line (imapsync_bin env) project acc
    ∈ logs_of tid (_run_imapsync_for_task env tid st).
Proof.
  intros Ht Hp Hb Hi.
  destruct (run_ok env tid st t project Ht Hp Hb) as (t' & Ht' & Hl & _).
  unfold logs_of. rewrite Ht'. cbn. rewrite Hl, elem_of_app. right.
  apply account_lines_in_run with i acc; [done|]. apply cmd_line_in_account.
Qed.

(** C8 (the code departs from the claim): an exception while an account is
    executed is logged and the next account is run, but it is not counted as
    a failure: its line carries no failure signal and the status ends as
    Completed. *)
Theorem exception_is_not_counted_as_failure :
  logs_of Demo.tid
    (_run_imapsync_for_task Demo.undecodable Demo.tid
       (Demo.started [Demo.alice; Demo.bob] 0 Demo.undecodable))
  = [cmd_line Demo.bin Demo.acme Demo.alice;
     "Transfer started";
     exception_line
       "'utf-8' codec can't decode byte 0xe9 in position 12: invalid continuation byte";
     cmd_line Demo.bin Demo.acme Demo.bob;
     ok_line Demo.bob]
  ∧ status_of Demo.tid
      (_run_imapsync_for_task Demo.undecodable Demo.tid
         (Demo.started [Demo.alice; Demo.bob] 0 Demo.undecodable))
    = Some Completed.
Proof. split; vm_compute; reflexivity. Qed.

(** ** Claim C10: the command line in the log *)

Lemma cmd_line_shape bin project acc :
  cmd_line bin project acc =
  "Commande : " +:+ bin
    +:+ " --host1 " +:+ default "" (old_server_url project)
    +:+ " --user1 " +:+ src_email_of acc
    +:+ " --password1 " +:+ password_of acc
    +:+ " --host2 " +:+ default "" (new_server_url project)
    +:+ " --user2 " +:+ tgt_email_of acc
    +:+ " --password2 " +:+ password_of acc
    +:+ cmd_rest project acc.
Proof.
  unfold cmd_line, build_cmd, cmd_rest, Str.join.
  destruct (option_args _ ++ subfolder_args _) as [|arg args]; cbn.
  - by rewrite str_app_nil_r.
  - done.
Qed.

Lemma items_lookup tid t st :
  tid ∈ task_order st → sync_tasks st !! tid = Some t → (tid, t) ∈ items st.
Proof.
  intros Hin Ht. unfold items. apply list_elem_of_omap. exists tid.
  by rewrite Ht.
Qed.

Lemma export_task_line tid t line :
  line ∈ logs t → Str.contains (line +:+ nl) (export_task tid t) = true.
Proof.
  intros Hin. unfold export_task.
  destruct (concat_empty_elem (line +:+ nl) ((λ l, l +:+ nl) <$> logs t))
    as (a & b & ->); [by apply (list_elem_of_fmap_2 (λ l, l +:+ nl))|].
  do 12 apply contains_app_r. rewrite !str_app_assoc.
  rewrite <-(str_app_assoc line nl). apply contains_infix.
Qed.

Lemma export_line tid t st filename line :
  (tid, t) ∈ items st → line ∈ logs t → Str.truthy filename = true →
  ∃ text, _export_logs filename st = Some text
          ∧ Str.contains (line +:+ nl) text = true.
Proof.
  intros Hit Hin Hf. unfold _export_logs. rewrite Hf. eexists. split; [done|].
  destruct (concat_empty_elem (export_task tid t)
              ((λ '(tid, t), export_task tid t) <$> items st)) as (a & b & ->).
  { by apply (list_elem_of_fmap_2 (λ '(tid, t), export_task tid t) _ (tid, t)). }
  apply contains_app_r, contains_app_l. by apply export_task_line.
Qed.

Lemma matched_line tid t st term line :
  (tid, t) ∈ items st → line ∈ logs t →
  Str.contains (Str.lower term) (Str.lower line) = true →
  "[" +:+ tid +:+ "] " +:+ line ∈ matched term st.
Proof.
  intros Hit Hin Hm. unfold matched.
  apply list_elem_of_bind. exists (tid, t). split; [|done].
  apply list_elem_of_bind. exists line. split; [by left|].
  by apply list_elem_of_filter.
Qed.

Lemma search_line tid t st term line :
  (tid, t) ∈ items st → line ∈ logs t → Str.truthy term = true →
  Str.contains (Str.lower term) (Str.lower line) = true →
  ∃ shown, _search_logs term st = inr shown
           ∧ "[" +:+ tid +:+ "] " +:+ line ∈ shown.
Proof.
  intros Hit Hin Ht Hm. unfold _search_logs. rewrite Ht.
  pose proof (matched_line tid t st term line Hit Hin Hm) as H.
  destruct (matched term st) as [|x found]; [by apply elem_of_nil in H|].
  eexists. split; [done|]. by do 2 right.
Qed.

(** C10: for every account run, the log of the task gets a line that begins
    with "Commande : " and carries the password of the account in clear,
    once after --password1 and once after --password2; an export writes
    that line to the file, and a search whose term matches it shows it. *)
Theorem command_line_discloses_password env tid st t project i acc :
  sync_tasks st !! tid = Some t →
  tid ∈ task_order st →
  find_project (project_name t) (config st) = Some project →
  bin_exists env = true →
  selected_accounts t !! i = Some acc →
  let st' := _run_imapsync_for_task env tid st in
  let line := cmd_line (imapsync_bin env) project acc in
  line ∈ logs_of tid st'
  ∧ line =
      "Commande : " +:+ imapsync_bin env
        +:+ " --host1 " +:+ default "" (old_server_url project)
        +:+ " --user1 " +:+ src_email_of acc
        +:+ " --password1 " +:+ password_of acc
        +:+ " --host2 " +:+ default "" (new_server_url project)
        +:+ " --user2 " +:+ tgt_email_of acc
        +:+ " --password2 " +:+ password_of acc
        +:+ cmd_rest project acc
  ∧ (∀ filename, Str.truthy filename = true →
       ∃ text, _export_logs filename st' = Some text
               ∧ Str.contains (line +:+ nl) text = true)
  ∧ (∀ term, Str.truthy term = true →
       Str.contains (Str.lower term) (Str.lower line) = true →
       ∃ shown, _search_logs term st' = inr shown
                ∧ "[" +:+ tid +:+ "] " +:+ line ∈ shown).
Proof.
  intros Ht Hord Hp Hb Hi st' line.
  pose proof (every_account_is_run env tid st t project i acc Ht Hp Hb Hi) as Hin.
  fold st' line in Hin.
  destruct (run_ok env tid st t project Ht Hp Hb) as (t' & Ht' & _).
  fold st' in Ht'.
  assert (Hit : (tid, t') ∈ items st').
  { apply items_lookup; [|done]. unfold st'. by rewrite run_order. }
  assert (Hin' : line ∈ logs t').
  { unfold logs_of in Hin. by rewrite Ht' in Hin. }
  split_and!; [done|apply cmd_line_shape| |].
  - intros filename Hf. by apply export_line with tid t'.
  - intros term Htrue Hm. by apply search_line with t'.
Qed.

Lemma command_line_discloses_password_witness :
  "Commande : /opt/imapsyncui/bin/imapsync --host1 imap.old.example --user1 bob@old.example --password1 hunter2 --host2 imap.new.example --user2 bob@new.example --password2 hunter2 --regextrans2 s/^(.*)/Archive/$1"
    ∈ logs_of Demo.tid
        (_run_imapsync_for_task (Demo.exits [0; 0]) Demo.tid
           (Demo.started [Demo.alice; Demo.bob] 0 (Demo.exits [0; 0]))).
Proof.
  apply (command_line_discloses_password (Demo.exits [0; 0]) Demo.tid
           (Demo.started [Demo.alice; Demo.bob] 0 (Demo.exits [0; 0]))
           (Demo.fresh_task [Demo.alice; Demo.bob] 0) Demo.acme 1 Demo.bob).
  - vm_compute; reflexivity.
  - vm_compute. apply list_elem_of_here.
  - reflexivity.
  - reflexivity.
  - reflexivity.
Defined.

(** ** Claim C5: submissions without account *)

Lemma start_sync_lookup project selected interval uid env st k :
  sync_tasks (_start_sync project selected interval uid env st) !! k =
  if decide (task_id_of project uid = k)
  then Some (started_task project selected interval st)
  else sync_tasks st !! k.
Proof.
  unfold _start_sync, start_timer, start_thread, store_task, started_task.
  destruct (decide (task_id_of project uid = k)) as [<-|Hne];
    destruct (0 <? interval); cbn.
  - by rewrite !lookup_alter_eq, lookup_insert_eq.
  - by rewrite !lookup_alter_eq, lookup_insert_eq.
  - by rewrite !lookup_alter_ne, lookup_insert_ne.
  - by rewrite !lookup_alter_ne, lookup_insert_ne.
Qed.

Lemma start_sync_threads project selected interval uid env st :
  threads (_start_sync project selected interval uid env st) =
  threads st ++ [new_thread (task_id_of project uid) env].
Proof. unfold _start_sync. by destruct (0 <? interval). Qed.

Lemma start_sync_timers project selected interval uid env st :
  timers (_start_sync project selected interval uid env st) =
  timers st ++ (if 0 <? interval
                then [started_timer (task_id_of project uid) interval] else []).
Proof. unfold _start_sync. destruct (0 <? interval); cbn; by rewrite ?app_nil_r. Qed.

Lemma start_each_tasks project interval runs i selected st k t' :
  sync_tasks (start_each project interval runs i selected st) !! k = Some t' →
  sync_tasks st !! k = Some t'
  ∨ ∃ acc, acc ∈ selected ∧ selected_accounts t' = [acc] ∧ status t' = Running.
Proof.
  revert i st. induction selected as [|acc selected IH]; intros i st H; [by left|].
  cbn in H. apply IH in H as [H|(a & Ha & H)].
  - rewrite start_sync_lookup in H. case_decide; [|by left].
    simplify_eq. right. exists acc. split; [apply list_elem_of_here|done].
  - right. exists a. split; [by apply list_elem_of_further|done].
Qed.

Lemma start_each_threads_length project interval runs i selected st :
  length (threads (start_each project interval runs i selected st))
  = (length (threads st) + length selected)%nat.
Proof.
  revert i st. induction selected as [|acc selected IH]; intros i st; cbn; [lia|].
  rewrite IH, start_sync_threads, length_app. cbn. lia.
Qed.

(** C5, as stated, fails: [_start_sync] called with no account stores a task
    and starts its thread. *)
Lemma start_sync_accepts_no_account :
  sync_tasks (initial [Demo.acme]) !! Demo.tid = None
  ∧ sync_tasks (Demo.started [] 0 (Demo.exits [])) !! Demo.tid
    = Some (Demo.fresh_task [] 0)
  ∧ threads (Demo.started [] 0 (Demo.exits []))
    = [new_thread Demo.tid (Demo.exits [])].
Proof. split_and!; vm_compute; reflexivity. Qed.

(** C5 (amended): [_start_sync] never fails and does not look at the number
    of accounts: it always stores a task with status Running and starts its
    thread.  The submission without account is turned down by its callers:
    with an empty selection [action_launch_sync] creates no task and starts
    nothing: the task table, its order, the threads, the timers, the
    processes and the configuration are as before, and when the project has
    accounts the one thing it does is to show the message of the empty
    selection, which becomes the text of the status bar.  Every task a
    launch creates is Running and has exactly one account, taken from the
    selection, and a launch with a selection starts as many threads as
    accounts selected. *)
Theorem start_sync_never_rejects :
  (∀ project selected interval uid env st,
     let st' := _start_sync project selected interval uid env st in
     sync_tasks st' !! task_id_of project uid
       = Some (started_task project selected interval st)
     ∧ status (started_task project selected interval st) = Running
     ∧ selected_accounts (started_task project selected interval st) = selected
     ∧ threads st' = threads st ++ [new_thread (task_id_of project uid) env])
  ∧ (∀ choice interval_input runs st,
       let r := action_launch_sync choice [] interval_input runs st in
       sync_tasks r.1 = sync_tasks st ∧ task_order r.1 = task_order st
       ∧ threads r.1 = threads st ∧ timers r.1 = timers st
       ∧ procs r.1 = procs st ∧ config r.1 = config st
       ∧ ∀ project, config st !! default 0%nat choice = Some project →
           is_Some choice → accounts project ≠ [] →
           r = (set_message "Aucun compte sélectionné." st,
                Some ("Aucun compte sélectionné.", "info")))
  ∧ (∀ choice selected interval_input runs st,
       let r := action_launch_sync choice selected interval_input runs st in
       (∀ k t', sync_tasks r.1 !! k = Some t' →
          sync_tasks st !! k = Some t'
          ∨ ∃ acc, acc ∈ selected ∧ selected_accounts t' = [acc] ∧ status t' = Running)
       ∧ (r.2 = Some ("Synchronisation démarrée.", "success") →
          length (threads r.1) = (length (threads st) + length selected)%nat)).
Proof.
  split_and!.
  - intros project selected interval uid env st st'. unfold st'.
    rewrite start_sync_lookup, decide_True, start_sync_threads by done. done.
  - intros choice interval_input runs st r.
    assert (∃ m, r.1 = set_message m st) as [m Hm].
    { subst r. unfold action_launch_sync.
      destruct (config st); [by eexists|].
      destruct (choice ≫= _); [by destruct (accounts _); eexists|].
      exists (status_message st). by destruct st. }
    rewrite Hm. split_and!; try done.
    intros project Hp [idx ->] Hacc. subst r. unfold action_launch_sync.
    cbn in Hp. cbn [mbind option_bind].
    destruct (config st) as [|p ps] eqn:E; [by destruct idx|]. rewrite Hp.
    destruct (accounts project); [done|]. reflexivity.
  - intros choice selected interval_input runs st r. subst r.
    unfold action_launch_sync.
    destruct (config st); [by split; [left|]|].
    destruct (choice ≫= _); [|by split; [left|]].
    destruct (accounts _); [by split; [left|]|].
    destruct selected as [|acc selected]; [by split; [left|]|].
    cbn [fst snd prod_map popup_message]. split.
    + intros k t' H. by apply start_each_tasks in H.
    + intros _. unfold id. cbn [set_message threads].
      by rewrite start_each_threads_length.
Qed.

Lemma start_sync_never_rejects_witness :
  action_launch_sync (Some 0%nat) [] (Some 5) Demo.draws (initial [Demo.acme])
  = (set_message "Aucun compte sélectionné." (initial [Demo.acme]),
     Some ("Aucun compte sélectionné.", "info"))
  ∧ sync_tasks Demo.launched !! "acme_4e5f6a7b"
    = Some (with_thread (Some 1%nat) (with_timer (Some 1%nat) (Demo.fresh_task [Demo.bob] 5)))
  ∧ sync_tasks (initial [Demo.acme]) !! "acme_4e5f6a7b" = None
  ∧ (∃ acc, acc ∈ [Demo.alice; Demo.bob]
            ∧ selected_accounts
                (with_thread (Some 1%nat)
                   (with_timer (Some 1%nat) (Demo.fresh_task [Demo.bob] 5))) = [acc]
            ∧ status
                (with_thread (Some 1%nat)
                   (with_timer (Some 1%nat) (Demo.fresh_task [Demo.bob] 5))) = Running)
  ∧ length (threads Demo.launched) = 2%nat.
Proof.
  destruct start_sync_never_rejects as (_ & H2 & H3).
  assert (Hin : sync_tasks Demo.launched !! "acme_4e5f6a7b"
                = Some (with_thread (Some 1%nat)
                          (with_timer (Some 1%nat) (Demo.fresh_task [Demo.bob] 5))))
    by (vm_compute; reflexivity).
  assert (Hout : sync_tasks (initial [Demo.acme]) !! "acme_4e5f6a7b" = None)
    by (vm_compute; reflexivity).
  destruct (H3 (Some 0%nat) [Demo.alice; Demo.bob] (Some 5) Demo.draws
              (initial [Demo.acme])) as [Hone Hcount].
  split_and!.
  - apply (H2 (Some 0%nat) (Some 5) Demo.draws (initial [Demo.acme])) with Demo.acme.
    + reflexivity.
    + by eexists.
    + discriminate.
  - exact Hin.
  - exact Hout.
  - destruct (Hone "acme_4e5f6a7b" _ Hin) as [Hold|Hnew].
    + rewrite Hout in Hold. discriminate Hold.
    + exact Hnew.
  - apply Hcount. reflexivity.
Defined.

(** ** Claim C6: manual cancellation *)

(** C6, as stated, fails: with a living process and the timer of the task
    pending, [_stop_sync] sets the status to Stopped and leaves the timer
    armed. *)
Lemma stop_leaves_timer_armed :
  (λ st, sync_tasks st !! Demo.tid ≫= live_process st)
    <$> run_trace Demo.process_running (initial [Demo.acme]) = Some (Some 0%nat)
  ∧ pending_timers_of Demo.tid
      <$> run_trace Demo.process_running (initial [Demo.acme])
    = Some [started_timer Demo.tid 5]
  ∧ (λ st, status_of Demo.tid (_stop_sync Demo.tid st).1)
      <$> run_trace Demo.process_running (initial [Demo.acme])
    = Some (Some Stopped)
  ∧ (λ st, pending_timers_of Demo.tid (_stop_sync Demo.tid st).1)
      <$> run_trace Demo.process_running (initial [Demo.acme])
    = Some [started_timer Demo.tid 5].
Proof. split_and!; vm_compute; reflexivity. Qed.

(** C6 (amended): when the task has a living process, [_stop_sync] calls
    [terminate] on it, sets the status to Stopped, appends the line of the
    manual stop and shows that the task was stopped; it does not touch the
    timers, and a timer that fires while the status is Stopped starts
    nothing.  When the task has no living process (whether a timer is
    pending or not), or does not exist, it shows an error message and
    changes nothing but the text of the status bar: the task table (status,
    logs, timer of every task), the threads, the timers, the processes and
    the configuration are as before.  On every path the text of the status
    bar becomes the first 60 characters of the message shown. *)
Theorem stop_sync_effect tid st :
  let r := _stop_sync tid st in
  status_message r.1 = Str.take 60 r.2.1
  ∧ match sync_tasks st !! tid with
    | None =>
        r.2 = ("Aucune synchro pour '" +:+ tid +:+ "'.", "error")
        ∧ same_engine st r.1
    | Some t =>
        match live_process st t with
        | Some h =>
            r.2 = ("Sync '" +:+ tid +:+ "' arrêtée.", "notification")
            ∧ sync_tasks r.1 !! tid
              = Some (append_log stopped_line (with_status Stopped t))
            ∧ terminated <$> procs r.1 !! h = Some true
            ∧ timers r.1 = timers st
            ∧ threads r.1 = threads st
            ∧ (∀ env, _scheduled_sync tid env r.1 = r.1)
        | None =>
            r.2 = ("Sync '" +:+ tid +:+ "' n'est pas en cours.", "error")
            ∧ same_engine st r.1
        end
    end.
Proof.
  intros r. subst r. unfold _stop_sync, popup_message.
  destruct (sync_tasks st !! tid) as [t|] eqn:Ht; [|done].
  destruct (live_process st t) as [h|] eqn:Hlive; [|done].
  cbn [fst snd]. split_and!; try done.
  - cbn. by rewrite lookup_alter_eq, Ht.
  - unfold live_process in Hlive. destruct (process t) as [h'|]; [|done].
    destruct (procs st !! h') as [p|] eqn:Hp; [|done].
    destruct (alive p); [|done]. simplify_eq. cbn.
    by rewrite list_lookup_alter_eq, Hp.
  - intros env. unfold _scheduled_sync. cbn. by rewrite lookup_alter_eq, Ht.
Qed.

(** ** Steps of the engine *)

Global Instance evolves_refl : Reflexive evolves.
Proof. by intros t. Qed.

Global Instance evolves_trans : Transitive evolves.
Proof.
  intros t1 t2 t3 [Hi1 Hl1] [Hi2 Hl2]. split; [congruence|by etrans].
Qed.

Lemma keeps_tasks_refl st : keeps_tasks st st.
Proof. intros k. destruct (sync_tasks st !! k); by constructor. Qed.

Lemma keeps_tasks_trans st1 st2 st3 :
  keeps_tasks st1 st2 → keeps_tasks st2 st3 → keeps_tasks st1 st3.
Proof.
  intros H1 H2 k. specialize (H1 k). specialize (H2 k).
  destruct H1 as [t1 t2 H1|]; inversion H2; simplify_eq; constructor. by etrans.
Qed.

Lemma keeps_tasks_same st st' : sync_tasks st' = sync_tasks st → keeps_tasks st st'.
Proof. intros E k. rewrite E. apply keeps_tasks_refl. Qed.

Lemma keeps_tasks_update tid f st :
  (∀ t, evolves t (f t)) → keeps_tasks st (update_task tid f st).
Proof.
  intros Hf k. rewrite lookup_update_task. case_decide.
  - destruct (sync_tasks st !! k); constructor. apply Hf.
  - apply keeps_tasks_refl.
Qed.

Lemma evolves_with_status s t : evolves t (with_status s t).
Proof. done. Qed.

Lemma evolves_with_thread h t : evolves t (with_thread h t).
Proof. done. Qed.

Lemma evolves_append_log line t : evolves t (append_log line t).
Proof. split; [done|]. by apply prefix_app_r. Qed.

Lemma evolves_task_op op p t : evolves t (task_op op p t).
Proof. destruct op; try done. apply evolves_append_log. Qed.

Lemma exec_op_keeps tid op st p : keeps_tasks st (exec_op tid op (st, p)).1.
Proof.
  intros k. rewrite exec_op_tasks. case_decide; [|apply keeps_tasks_refl].
  destruct (sync_tasks st !! k); constructor. apply evolves_task_op.
Qed.

Lemma run_begin_keeps env tid st : keeps_tasks st (run_begin env tid st).1.
Proof.
  unfold run_begin. repeat case_match; try apply keeps_tasks_refl;
    apply keeps_tasks_update; intros t'.
  - etrans; [apply evolves_append_log|apply evolves_with_status].
  - apply evolves_with_status.
Qed.

Lemma run_begin_threads env tid st : threads (run_begin env tid st).1 = threads st.
Proof. unfold run_begin. by repeat case_match. Qed.

Lemma run_begin_timers env tid st : timers (run_begin env tid st).1 = timers st.
Proof. unfold run_begin. by repeat case_match. Qed.

Lemma scheduled_sync_keeps tid env st : keeps_tasks st (_scheduled_sync tid env st).
Proof.
  unfold _scheduled_sync. repeat case_match; try apply keeps_tasks_refl.
  apply (keeps_tasks_update tid _ st). intros t'. apply evolves_with_thread.
Qed.

Lemma scheduled_sync_timers tid env st : timers (_scheduled_sync tid env st) = timers st.
Proof. unfold _scheduled_sync. by repeat case_match. Qed.

Lemma scheduled_sync_threads tid env st :
  threads (_scheduled_sync tid env st) =
  threads st ++
    match sync_tasks st !! tid with
    | Some t => if may_run_again (status t) then [new_thread tid env] else []
    | None => []
    end.
Proof. unfold _scheduled_sync. repeat case_match; by rewrite ?app_nil_r. Qed.

Lemma stop_sync_keeps tid st : keeps_tasks st (_stop_sync tid st).1.
Proof.
  unfold _stop_sync, popup_message. repeat case_match; cbn [fst];
    try (by apply keeps_tasks_same).
  eapply keeps_tasks_trans; [|by apply keeps_tasks_same].
  apply (keeps_tasks_update tid _ (set_procs _ st)). intros t'.
  etrans; [apply evolves_with_status|apply evolves_append_log].
Qed.

Lemma stop_sync_threads tid st : threads (_stop_sync tid st).1 = threads st.
Proof. unfold _stop_sync. by repeat case_match. Qed.

Lemma stop_sync_timers tid st : timers (_stop_sync tid st).1 = timers st.
Proof. unfold _stop_sync. by repeat case_match. Qed.

(** What one step does to the table, the threads and the timers. *)
Lemma step_summary e st st' :
  step e st = Some st' →
  match e with
  | EStart project selected interval uid env =>
      sync_tasks st !! task_id_of project uid = None
      ∧ st' = _start_sync project selected interval uid env st
  | EFire h env =>
      ∃ tm, timers st !! h = Some tm ∧ tm_pending tm = true
            ∧ timers st' = <[h := fired tm]> (timers st)
            ∧ keeps_tasks st st'
            ∧ threads st' =
                threads st ++
                  match sync_tasks st !! tm_task tm with
                  | Some t => if may_run_again (status t)
                              then [new_thread (tm_task tm) env] else []
                  | None => []
                  end
  | EThread i =>
      ∃ th th', threads st !! i = Some th ∧ th_task th' = th_task th
                ∧ in_flight th = true
                ∧ threads st' = <[i := th']> (threads st)
                ∧ timers st' = timers st ∧ keeps_tasks st st'
  | EStop _ | EProcExit _ | EConfig _ =>
      threads st' = threads st ∧ timers st' = timers st ∧ keeps_tasks st st'
  end.
Proof.
  destruct e as [project selected interval uid env|h env|tid|i|h|projects]; cbn.
  - destruct (sync_tasks st !! _); [done|]. by intros [= <-].
  - destruct (timers st !! h) as [tm|] eqn:Htm; [|done].
    destruct (tm_pending tm) eqn:Hp; [|done]. intros [= <-]. exists tm.
    split_and!; try done.
    + by rewrite scheduled_sync_timers.
    + apply (scheduled_sync_keeps _ _ (set_timers _ st)).
    + by rewrite scheduled_sync_threads.
  - intros [= <-]. split_and!;
      [apply stop_sync_threads|apply stop_sync_timers|apply stop_sync_keeps].
  - unfold thread_step. destruct (threads st !! i) as [th|] eqn:Hth; [|done].
    destruct (th_pc th) as [|[|op todo]] eqn:Hpc; [|done|].
    + pose proof (run_begin_keeps (th_env th) (th_task th) st) as Hk.
      pose proof (run_begin_threads (th_env th) (th_task th) st) as Ht.
      pose proof (run_begin_timers (th_env th) (th_task th) st) as Hm.
      destruct (run_begin _ _ st) as [st1 ops]. intros [= <-]. cbn in *.
      eexists th, _. split_and!; [done| |by unfold in_flight; rewrite Hpc|
        by rewrite Ht|done|done]. done.
    + pose proof (exec_op_keeps (th_task th) op st (th_proc th)) as Hk.
      pose proof (exec_op_threads (th_task th) op (st, th_proc th)) as Ht.
      pose proof (exec_op_timers (th_task th) op (st, th_proc th)) as Hm.
      destruct (exec_op _ _ _) as [st1 p1]. intros [= <-]. cbn in *.
      eexists th, _. split_and!; [done| |by unfold in_flight; rewrite Hpc|
        by rewrite Ht|done|done]. done.
  - destruct (procs st !! h) as [p|]; [|done]. destruct (alive p); [|done].
    intros [= <-]. split_and!; try done. by apply keeps_tasks_same.
  - intros [= <-]. split_and!; try done. by apply keeps_tasks_same.
Qed.

Lemma keeps_tasks_grow st st' : keeps_tasks st st' → tasks_grow st st'.
Proof.
  intros H k t Ht. specialize (H k). rewrite Ht in H. inversion H; simplify_eq.
  eauto.
Qed.

Lemma tasks_grow_trans st1 st2 st3 :
  tasks_grow st1 st2 → tasks_grow st2 st3 → tasks_grow st1 st3.
Proof.
  intros H1 H2 k t Ht. destruct (H1 k t Ht) as (t2 & Ht2 & E2).
  destruct (H2 k t2 Ht2) as (t3 & Ht3 & E3). exists t3. split; [done|by etrans].
Qed.

Lemma exec_ops_keeps tid ops s : keeps_tasks s.1 (exec_ops tid ops s).1.
Proof.
  revert s. induction ops as [|op ops IH]; intros [st p]; [apply keeps_tasks_refl|].
  rewrite exec_ops_cons. eapply keeps_tasks_trans; [|apply IH].
  apply exec_op_keeps.
Qed.

Lemma run_keeps env tid st : keeps_tasks st (_run_imapsync_for_task env tid st).
Proof.
  unfold _run_imapsync_for_task.
  pose proof (run_begin_keeps env tid st) as Hb.
  destruct (run_begin env tid st) as [st1 ops]. cbn in Hb.
  eapply keeps_tasks_trans; [exact Hb|]. apply (exec_ops_keeps tid ops (st1, None)).
Qed.

Lemma step_grows e st st' : step e st = Some st' → tasks_grow st st'.
Proof.
  intros Hs. pose proof (step_summary e st st' Hs) as H.
  destruct e;
    [ | destruct H as (tm & _ & _ & _ & Hk & _)
      | destruct H as (_ & _ & Hk)
      | destruct H as (th & th' & _ & _ & _ & _ & _ & Hk)
      | destruct H as (_ & _ & Hk)
      | destruct H as (_ & _ & Hk) ];
    try by apply keeps_tasks_grow.
  destruct H as [Hnew ->]. intros k t Ht. exists t. split; [|done].
  rewrite start_sync_lookup, decide_False; [done|]. intros <-. congruence.
Qed.

Lemma run_trace_grows tr st st' : run_trace tr st = Some st' → tasks_grow st st'.
Proof.
  revert st. induction tr as [|e tr IH]; intros st H; cbn in H.
  - simplify_eq. apply keeps_tasks_grow, keeps_tasks_refl.
  - destruct (step e st) as [st1|] eqn:Hs; [|done].
    eapply tasks_grow_trans; [by eapply step_grows|by apply IH].
Qed.

Lemma run_trace_app tr1 tr2 st :
  run_trace (tr1 ++ tr2) st = run_trace tr1 st ≫= run_trace tr2.
Proof.
  revert st. induction tr1 as [|e tr1 IH]; intros st; cbn; [done|].
  destruct (step e st); [apply IH|done].
Qed.

(** ** A worker left alone runs to its return

    The blocks of a thread, taken one after the other with nothing in
    between, do what [_run_imapsync_for_task] does, and the thread returns. *)

Lemma exec_op_set_threads l tid op st p :
  exec_op tid op (set_threads l st, p) =
  (set_threads l (exec_op tid op (st, p)).1, (exec_op tid op (st, p)).2).
Proof. destruct op as [line [m|]| | | |]; try done. by destruct p. Qed.

Lemma exec_ops_set_threads l tid ops st p :
  exec_ops tid ops (set_threads l st, p) =
  (set_threads l (exec_ops tid ops (st, p)).1, (exec_ops tid ops (st, p)).2).
Proof.
  revert st p. induction ops as [|op ops IH]; intros st p; [done|].
  rewrite !exec_ops_cons, exec_op_set_threads.
  destruct (exec_op tid op (st, p)) as [st1 p1]. apply IH.
Qed.

Lemma thread_blocks_run ops i st th :
  threads st !! i = Some th → th_pc th = Steps ops →
  ∃ st', run_trace (replicate (length ops) (EThread i)) st = Some st'
         ∧ forget_threads st'
           = forget_threads (exec_ops (th_task th) ops (st, th_proc th)).1
         ∧ in_flight <$> threads st' !! i = Some false.
Proof.
  revert st th. induction ops as [|op ops IH]; intros st th Hth Hpc.
  - exists st. split_and!; [done..|]. rewrite Hth. cbn. unfold in_flight. by rewrite Hpc.
  - cbn [length replicate run_trace step]. unfold thread_step. rewrite Hth, Hpc.
    pose proof (exec_op_threads (th_task th) op (st, th_proc th)) as Et.
    rewrite exec_ops_cons.
    destruct (exec_op (th_task th) op (st, th_proc th)) as [st1 p1]. cbn in Et.
    destruct (IH (set_threads (<[i:=set_pc p1 (Steps ops) th]> (threads st1)) st1)
                (set_pc p1 (Steps ops) th)) as (st' & Hrun & Hf & Hdone); [|done|].
    { cbn. rewrite Et. apply list_lookup_insert_eq. by eapply lookup_lt_Some. }
    exists st'. split_and!; [done| |done].
    rewrite Hf. cbn [th_task th_proc set_pc]. by rewrite exec_ops_set_threads.
Qed.

Lemma worker_runs_to_return i st tid env :
  threads st !! i = Some (new_thread tid env) →
  ∃ n st', run_trace (replicate n (EThread i)) st = Some st'
           ∧ forget_threads st' = forget_threads (_run_imapsync_for_task env tid st)
           ∧ in_flight <$> threads st' !! i = Some false.
Proof.
  intros Hth. unfold _run_imapsync_for_task.
  pose proof (run_begin_threads env tid st) as Et.
  destruct (run_begin env tid st) as [st1 ops] eqn:Eb. cbn in Et.
  destruct (thread_blocks_run ops i
              (set_threads (<[i:=set_pc None (Steps ops) (new_thread tid env)]>
                              (threads st1)) st1)
              (set_pc None (Steps ops) (new_thread tid env)))
    as (st' & Hrun & Hf & Hdone); [|done|].
  { cbn. rewrite Et. apply list_lookup_insert_eq. by eapply lookup_lt_Some. }
  exists (S (length ops)), st'. split_and!; [|by rewrite Hf, exec_ops_set_threads|done].
  cbn [replicate run_trace step]. unfold thread_step. rewrite Hth.
  cbn [th_pc th_env th_task th_proc new_thread]. by rewrite Eb.
Qed.

(** ** Claim C9: the log only grows *)

Lemma tasks_grow_grown st st' tid t :
  tasks_grow st st' → sync_tasks st !! tid = Some t → grown tid t st'.
Proof.
  intros H Ht. destruct (H tid t Ht) as (t' & Ht' & _ & new & Hl).
  by exists t', new.
Qed.

(** C9: every operation of the engine (a whole execution of the worker, any
    single block of it, the final status among them, the recurrence
    callback, the manual stop, and any sequence of steps of the engine)
    leaves every task in the table with its earlier log as a prefix of its
    log: nothing is removed, reordered or replaced, lines are only added at
    the end, and the log is never shorter. *)
Theorem logs_append_only tid t st :
  sync_tasks st !! tid = Some t →
  (∀ env tid0, grown tid t (_run_imapsync_for_task env tid0 st))
  ∧ (∀ op tid0 proc, grown tid t (exec_op tid0 op (st, proc)).1)
  ∧ (∀ env tid0, grown tid t (_scheduled_sync tid0 env st))
  ∧ (∀ tid0, grown tid t (_stop_sync tid0 st).1)
  ∧ (∀ tr st', run_trace tr st = Some st' →
       grown tid t st' ∧ (length (logs t) ≤ length (logs_of tid st'))%nat).
Proof.
  intros Ht. split_and!.
  - intros env tid0. eapply tasks_grow_grown; [|done]. apply keeps_tasks_grow, run_keeps.
  - intros op tid0 proc. eapply tasks_grow_grown; [|done].
    apply keeps_tasks_grow, exec_op_keeps.
  - intros env tid0. eapply tasks_grow_grown; [|done].
    apply keeps_tasks_grow, scheduled_sync_keeps.
  - intros tid0. eapply tasks_grow_grown; [|done].
    apply keeps_tasks_grow, stop_sync_keeps.
  - intros tr st' Htr.
    assert (Hg : grown tid t st').
    { eapply tasks_grow_grown; [|done]. by eapply run_trace_grows. }
    split; [done|]. destruct Hg as (t' & new & Ht' & Hl).
    unfold logs_of. rewrite Ht'. cbn. rewrite Hl, length_app. lia.
Qed.

Lemma logs_append_only_witness :
  sync_tasks (Demo.state_after Demo.process_running) !! Demo.tid
  = Some Demo.running_task
  ∧ live_process (Demo.state_after Demo.process_running) Demo.running_task
    = Some 0%nat
  ∧ logs Demo.running_task = [cmd_line Demo.bin Demo.acme Demo.alice]
  ∧ logs_of Demo.tid (_stop_sync Demo.tid (Demo.state_after Demo.process_running)).1
    = [cmd_line Demo.bin Demo.acme Demo.alice; stopped_line]
  ∧ grown Demo.tid Demo.running_task
      (_stop_sync Demo.tid (Demo.state_after Demo.process_running)).1
  ∧ grown Demo.tid Demo.running_task
      (Demo.state_after (Demo.process_running ++ EStop Demo.tid :: Demo.worker_returns))
  ∧ (length (logs Demo.running_task)
     ≤ length (logs_of Demo.tid
                 (Demo.state_after
                    (Demo.process_running ++ EStop Demo.tid :: Demo.worker_returns))))%nat.
Proof.
  assert (Ht : sync_tasks (Demo.state_after Demo.process_running) !! Demo.tid
               = Some Demo.running_task) by (vm_compute; reflexivity).
  destruct (logs_append_only Demo.tid Demo.running_task
              (Demo.state_after Demo.process_running) Ht)
    as (_ & _ & _ & Hstop & Htrace).
  destruct (Htrace (EStop Demo.tid :: Demo.worker_returns)
              (Demo.state_after
                 (Demo.process_running ++ EStop Demo.tid :: Demo.worker_returns)))
    as [Hg Hl].
  { vm_compute. reflexivity. }
  split_and!.
  - exact Ht.
  - vm_compute. reflexivity.
  - vm_compute. reflexivity.
  - vm_compute. reflexivity.
  - apply Hstop.
  - exact Hg.
  - exact Hl.
Defined.

(** ** Counting the threads and timers of a task *)

Lemma length_filter_insert {A} (P : A → Prop) `{!∀ x, Decision (P x)}
    (l : list A) i x y :
  l !! i = Some x →
  (length (filter P (<[i := y]> l)) + (if decide (P x) then 1 else 0) =
   length (filter P l) + (if decide (P y) then 1 else 0))%nat.
Proof.
  revert i. induction l as [|a l IH]; intros [|i] Hi; simplify_eq/=.
  - rewrite !filter_cons. repeat case_decide; cbn; lia.
  - rewrite !filter_cons. specialize (IH i Hi). destruct (decide (P a)); cbn; lia.
Qed.

Lemma length_filter_snoc {A} (P : A → Prop) `{!∀ x, Decision (P x)}
    (l : list A) x :
  length (filter P (l ++ [x])) =
  (length (filter P l) + (if decide (P x) then 1 else 0))%nat.
Proof.
  rewrite filter_app, length_app, filter_cons, filter_nil. by case_decide.
Qed.

Lemma length_filter_elem {A} (P : A → Prop) `{!∀ x, Decision (P x)}
    (l : list A) i x :
  l !! i = Some x → P x → (0 < length (filter P l))%nat.
Proof.
  intros Hi HP. assert (Hin : x ∈ filter P l).
  { apply list_elem_of_filter. split; [done|]. by eapply list_elem_of_lookup_2. }
  destruct (filter P l); [by apply elem_of_nil in Hin|cbn; lia].
Qed.

Lemma pending_le_timers tid st :
  (length (pending_timers_of tid st) ≤ length (timers_of tid st))%nat.
Proof.
  unfold pending_timers_of, timers_of. induction (timers st) as [|tm l IH]; [done|].
  rewrite !filter_cons. repeat case_decide; cbn; try lia. tauto.
Qed.

Lemma counted_initial projects : counted (initial projects).
Proof. intros tid. cbn. by rewrite lookup_empty. Qed.

Lemma spawned_le tid tid' env (o : option Task) :
  (length (filter (λ th, th_task th = tid)
     match o with
     | Some t => if may_run_again (status t) then [new_thread tid' env] else []
     | None => []
     end) ≤ 1)%nat.
Proof.
  destruct o as [t|]; [destruct (may_run_again _)|]; cbn; try lia.
  case_decide; cbn; lia.
Qed.

Lemma spawned_other tid tid' env (o : option Task) :
  tid' ≠ tid →
  length (filter (λ th, th_task th = tid)
    match o with
    | Some t => if may_run_again (status t) then [new_thread tid' env] else []
    | None => []
    end) = 0%nat.
Proof.
  intros Hne. destruct o as [t|]; [destruct (may_run_again _)|]; try done.
  by rewrite filter_cons_False.
Qed.

Lemma counted_transfer st st' tid :
  keeps_tasks st st' →
  length (timers_of tid st') = length (timers_of tid st) →
  (length (threads_of tid st') + length (pending_timers_of tid st')
   ≤ length (threads_of tid st) + length (pending_timers_of tid st))%nat →
  (length (timers_of tid st) = 0%nat →
   length (threads_of tid st') = length (threads_of tid st)) →
  match sync_tasks st !! tid with
  | None => length (threads_of tid st) = 0%nat ∧ length (timers_of tid st) = 0%nat
  | Some t =>
      (length (threads_of tid st) + length (pending_timers_of tid st) ≤ 2)%nat
      ∧ (interval t ≤ 0 →
         length (timers_of tid st) = 0%nat ∧ (length (threads_of tid st) ≤ 1)%nat)
  end →
  match sync_tasks st' !! tid with
  | None => length (threads_of tid st') = 0%nat ∧ length (timers_of tid st') = 0%nat
  | Some t =>
      (length (threads_of tid st') + length (pending_timers_of tid st') ≤ 2)%nat
      ∧ (interval t ≤ 0 →
         length (timers_of tid st') = 0%nat ∧ (length (threads_of tid st') ≤ 1)%nat)
  end.
Proof.
  intros Hk Hm Hsum Hth Hc. specialize (Hk tid).
  destruct Hk as [t t' [Hi _]|].
  - destruct Hc as [H2 H1]. split; [lia|]. rewrite Hi. intros Hle.
    destruct (H1 Hle) as [H0 H1']. split; [lia|]. rewrite (Hth H0). lia.
  - destruct Hc as [H0 H0']. split; [|lia]. rewrite (Hth H0'). lia.
Qed.

Lemma step_counted e st st' : step e st = Some st' → counted st → counted st'.
Proof.
  intros Hs Hc tid. pose proof (step_summary e st st' Hs) as H.
  pose proof (Hc tid) as Hct. pose proof (pending_le_timers tid st) as Hle.
  destruct e as [project selected itv uid env|h env|tid0|i|h|projects];
    [|apply (counted_transfer st st' tid); try done..];
    unfold threads_of, pending_timers_of, timers_of in *.
  - destruct H as [Hnew ->].
    rewrite start_sync_lookup, start_sync_threads, start_sync_timers.
    rewrite length_filter_snoc.
    destruct (decide (task_id_of project uid = tid)) as [<-|Hne].
    + rewrite Hnew in Hct. destruct Hct as [Hth Htm]. rewrite decide_True by done.
      cbn [interval started_task].
      destruct (0 <? itv) eqn:Hi.
      * rewrite !length_filter_snoc. cbn. rewrite !decide_True by done.
        split; [lia|]. intros ?. lia.
      * rewrite app_nil_r. split; [lia|]. intros _. lia.
    + rewrite (decide_False (P := th_task _ = tid)) by done.
      destruct (0 <? itv).
      * rewrite !length_filter_snoc.
        rewrite (decide_False (P := tm_task _ = tid)) by done.
        rewrite (decide_False (P := tm_task _ = tid ∧ _)) by (cbn; tauto).
        rewrite !Nat.add_0_r. exact Hct.
      * rewrite app_nil_r, !Nat.add_0_r. exact Hct.
  - by destruct H as (tm & _ & _ & _ & Hk & _).
  - destruct H as (tm & Htm & Hp & -> & _).
    pose proof (length_filter_insert (λ tm, tm_task tm = tid) _ h tm (fired tm) Htm) as E.
    cbn in E. destruct (decide (tm_task tm = tid)); lia.
  - destruct H as (tm & Htm & Hp & -> & _ & ->).
    pose proof (length_filter_insert (λ tm, tm_task tm = tid ∧ tm_pending tm = true)
                  _ h tm (fired tm) Htm) as E.
    cbn in E. rewrite (decide_False (P := _ ∧ false = true)) in E by (intros [_ ?]; done).
    rewrite filter_app, length_app.
    destruct (decide (tm_task tm = tid)) as [Et|Hne].
    + rewrite decide_True in E by done.
      pose proof (spawned_le tid (tm_task tm) env (sync_tasks st !! tm_task tm)).
      lia.
    + rewrite decide_False in E by tauto.
      pose proof (spawned_other tid (tm_task tm) env (sync_tasks st !! tm_task tm) Hne).
      lia.
  - destruct H as (tm & Htm & Hp & _ & _ & ->). intros H0.
    rewrite filter_app, length_app.
    destruct (decide (tm_task tm = tid)) as [Et|Hne].
    + pose proof (length_filter_elem (λ tm, tm_task tm = tid) _ h tm Htm Et). lia.
    + pose proof (spawned_other tid (tm_task tm) env (sync_tasks st !! tm_task tm) Hne).
      lia.
  - by destruct H as (_ & _ & Hk).
  - destruct H as (_ & -> & _). done.
  - destruct H as (-> & -> & _). done.
  - destruct H as (-> & _). done.
  - by destruct H as (th & th' & _ & _ & _ & _ & _ & Hk).
  - destruct H as (th & th' & _ & _ & _ & _ & -> & _). done.
  - destruct H as (th & th' & Hth & Et & _ & -> & -> & _).
    pose proof (length_filter_insert (λ th, th_task th = tid) _ i th th' Hth) as E.
    cbn beta in E. rewrite Et in E. destruct (decide (th_task th = tid)); lia.
  - destruct H as (th & th' & Hth & Et & _ & -> & _ & _). intros _.
    pose proof (length_filter_insert (λ th, th_task th = tid) _ i th th' Hth) as E.
    cbn beta in E. rewrite Et in E. destruct (decide (th_task th = tid)); lia.
  - by destruct H as (_ & _ & Hk).
  - destruct H as (_ & -> & _). done.
  - destruct H as (-> & -> & _). done.
  - destruct H as (-> & _). done.
  - by destruct H as (_ & _ & Hk).
  - destruct H as (_ & -> & _). done.
  - destruct H as (-> & -> & _). done.
  - destruct H as (-> & _). done.
Qed.

Lemma run_trace_counted tr st st' :
  run_trace tr st = Some st' → counted st → counted st'.
Proof.
  revert st. induction tr as [|e tr IH]; intros st H Hc; cbn in H; [by simplify_eq|].
  destruct (step e st) as [st1|] eqn:Hs; [|done].
  apply (IH st1 H). by eapply step_counted.
Qed.

(** ** Claim C2: executions of one task in flight *)




(** ** Claim C4: the recurrence timer *)

(** No step removes a thread of a task. *)
Lemma step_threads_of e st st' tid :
  step e st = Some st' →
  (length (threads_of tid st) ≤ length (threads_of tid st'))%nat.
Proof.
  intros Hs. pose proof (step_summary e st st' Hs) as H. unfold threads_of.
  destruct e as [project selected itv uid env|h env|k|i|h|projects].
  - destruct H as [_ ->]. rewrite start_sync_threads, filter_app, length_app. lia.
  - destruct H as (tm & _ & _ & _ & _ & ->). rewrite filter_app, length_app. lia.
  - destruct H as (-> & _). lia.
  - destruct H as (th & th' & Hth & Htask & _ & -> & _).
    pose proof (length_filter_insert (λ th, th_task th = tid) (threads st) i th th' Hth)
      as Hl.
    cbn beta in Hl. repeat case_decide; try lia; congruence.
  - destruct H as (-> & _). lia.
  - destruct H as (-> & _). lia.
Qed.

Lemma run_trace_threads_of tr st st' tid :
  run_trace tr st = Some st' →
  (length (threads_of tid st) ≤ length (threads_of tid st'))%nat.
Proof.
  revert st. induction tr as [|e tr IH]; intros st H; cbn in H; [by simplify_eq|].
  destruct (step e st) as [st1|] eqn:Hs; [|done].
  pose proof (step_threads_of e st st1 tid Hs). specialize (IH st1 H). lia.
Qed.

(** C4: the recurrence is armed once, at the submission, and never again.
    A task is submitted for one account with an interval of one minute: the
    submission itself arms the timer, for 60 seconds.  The first execution
    completes, the timer fires, the second execution completes: the status
    is Completed, the interval is positive, nothing is in flight, and yet no
    timer is pending, the only timer ever created being the one that has
    fired.  It cannot fire again, and whatever the engine does from there,
    no timer is ever pending for the task again and it never gets a third
    execution. *)
Theorem recurrence_is_never_rearmed :
  pending_timers_of Demo.tid (Demo.started [Demo.alice] 1 (Demo.exits [0]))
  = [started_timer Demo.tid 1]
  ∧ tm_delay (started_timer Demo.tid 1) = 60
  ∧ run_trace Demo.two_clean_runs (initial [Demo.acme])
    = Some (Demo.state_after Demo.two_clean_runs)
  ∧ status_of Demo.tid (Demo.state_after Demo.two_clean_runs) = Some Completed
  ∧ interval <$> sync_tasks (Demo.state_after Demo.two_clean_runs) !! Demo.tid = Some 1
  ∧ in_flight_of Demo.tid (Demo.state_after Demo.two_clean_runs) = []
  ∧ length (threads_of Demo.tid (Demo.state_after Demo.two_clean_runs)) = 2%nat
  ∧ pending_timers_of Demo.tid (Demo.state_after Demo.two_clean_runs) = []
  ∧ timers (Demo.state_after Demo.two_clean_runs) = [fired (started_timer Demo.tid 1)]
  ∧ (∀ h env, step (EFire h env) (Demo.state_after Demo.two_clean_runs) = None)
  ∧ (∀ tr st',
       run_trace tr (Demo.state_after Demo.two_clean_runs) = Some st' →
       pending_timers_of Demo.tid st' = []
       ∧ length (threads_of Demo.tid st') = 2%nat).
Proof.
  assert (Hrun : run_trace Demo.two_clean_runs (initial [Demo.acme])
                 = Some (Demo.state_after Demo.two_clean_runs))
    by (vm_compute; reflexivity).
  assert (Hn : length (threads_of Demo.tid (Demo.state_after Demo.two_clean_runs))
               = 2%nat) by (vm_compute; reflexivity).
  assert (Htm : timers (Demo.state_after Demo.two_clean_runs)
                = [fired (started_timer Demo.tid 1)]) by (vm_compute; reflexivity).
  do 9 (split; [first [exact Hrun | exact Hn | exact Htm | vm_compute; reflexivity]|]).
  split.
  - intros h env. cbn [step]. rewrite Htm. by destruct h as [|[|h]].
  - intros tr st' Htr.
    pose proof (run_trace_threads_of tr _ st' Demo.tid Htr) as Hge.
    assert (Hc : counted st').
    { eapply run_trace_counted; [exact Htr|].
      eapply run_trace_counted; [exact Hrun|apply counted_initial]. }
    specialize (Hc Demo.tid). rewrite Hn in Hge.
    destruct (sync_tasks st' !! Demo.tid) as [t|].
    + destruct Hc as [Hc _]. split; [apply nil_length_inv|]; lia.
    + destruct Hc as [Hc _]. lia.
Qed.

Lemma recurrence_is_never_rearmed_witness :
  pending_timers_of Demo.tid
    (Demo.state_after (Demo.two_clean_runs ++ Demo.another_launch)) = []
  ∧ length (threads_of Demo.tid
              (Demo.state_after (Demo.two_clean_runs ++ Demo.another_launch)))
    = 2%nat.
Proof.
  destruct recurrence_is_never_rearmed as (_ & _ & _ & _ & _ & _ & _ & _ & _ & _ & H).
  apply (H Demo.another_launch).
  vm_compute. reflexivity.
Defined.

(** ** Claim C1: Stopped and the completion of the sequence *)

Lemma final_status_overwrites t :
  status (final_status t) = Failed ∨ status (final_status t) = Completed.
Proof. apply aggregate_cases. Qed.

(** Whenever a worker still has its last block ahead of it, letting it run
    to its return leaves Failed or Completed in the status, whatever the
    status was; Stopped is no exception. *)
Lemma completion_overwrites_status i st th ops t :
  threads st !! i = Some th → th_pc th = Steps (ops ++ [OFinal]) →
  OFinal ∉ ops → sync_tasks st !! th_task th = Some t →
  ∃ st', run_trace (replicate (length (ops ++ [OFinal])) (EThread i)) st = Some st'
         ∧ (status_of (th_task th) st' = Some Failed
            ∨ status_of (th_task th) st' = Some Completed).
Proof.
  intros Hth Hpc Hfin Ht.
  destruct (thread_blocks_run _ i st th Hth Hpc) as (st' & Hrun & Hf & _).
  exists st'. split; [done|].
  assert (E : sync_tasks st'
              = sync_tasks (exec_ops (th_task th) (ops ++ [OFinal]) (st, th_proc th)).1).
  { change (sync_tasks (forget_threads st')
            = sync_tasks (forget_threads
                (exec_ops (th_task th) (ops ++ [OFinal]) (st, th_proc th)).1)).
    by rewrite Hf. }
  unfold status_of. rewrite E, exec_ops_app.
  destruct (exec_ops_loop (th_task th) ops st (th_proc th) t Ht Hfin)
    as (t1 & H1 & _).
  destruct (exec_ops (th_task th) ops (st, th_proc th)) as [st1 p1]. cbn in H1 |- *.
  rewrite lookup_alter_eq, H1. cbn.
  destruct (aggregate_cases (logs t1)) as [-> | ->]; auto.
Qed.

(** C1 (the code departs from the claim): a task is stopped while its
    process runs, and its status is Stopped; when the worker then reaches
    its last block it overwrites Stopped with Failed (the final block writes
    Failed or Completed whatever the status was); the timer, still pending,
    then fires and starts a new execution. *)
Theorem stopped_is_overwritten_by_completion :
  status_of Demo.tid <$> run_trace Demo.stopped_while_running (initial [Demo.acme])
    = Some (Some Stopped)
  ∧ status_of Demo.tid
      <$> run_trace (Demo.stopped_while_running ++ Demo.worker_returns)
            (initial [Demo.acme])
    = Some (Some Failed)
  ∧ logs_of Demo.tid
      <$> run_trace (Demo.stopped_while_running ++ Demo.worker_returns)
            (initial [Demo.acme])
    = Some [cmd_line Demo.bin Demo.acme Demo.alice; stopped_line;
            failed_line Demo.alice (-15)]
  ∧ in_flight_of Demo.tid
      <$> run_trace (Demo.stopped_while_running ++ Demo.worker_returns)
            (initial [Demo.acme])
    = Some []
  ∧ in_flight_of Demo.tid
      <$> run_trace (Demo.stopped_while_running ++ Demo.worker_returns
                       ++ [EFire 0 (Demo.exits [0])])
            (initial [Demo.acme])
    = Some [new_thread Demo.tid (Demo.exits [0])]
  ∧ (∀ t, status (final_status (with_status Stopped t)) ≠ Stopped).
Proof.
  split_and!; try (vm_compute; reflexivity).
  intros t. by destruct (final_status_overwrites (with_status Stopped t)) as [-> | ->].
Qed.
